(** * ssm_jax.hmm.models.base: a shallow embedding of BaseHMM and StandardHMM

    The development follows [src/ssm_jax/hmm/models/base.py].

    - Floating-point scalars are an abstract carrier [F] with the operations
      the code applies to them ([Scalar]); no algebraic law is assumed, so
      every statement below is about which operations the code performs on
      which operands, not about real arithmetic.
    - A [jnp] array is a shape together with its row-major data ([Array]).
    - Python exceptions are the [Err] results of [result]; code that mutates
      [self] runs in the monad [M], in which the mutated object survives an
      exception, as it does in Python.
    - The object [self] is its dictionary of [Parameter] attributes
      ([Model]); its class is the method table [HMMClass]. *)

From Stdlib Require Import String.
From Stdlib Require Import List Arith Lia Bool QArith.
Import ListNotations.
Local Open Scope string_scope.
Local Open Scope list_scope.
Local Open Scope nat_scope.

Set Implicit Arguments.

(** ** Python exceptions and fallible results *)

Inductive PyError : Type :=
| AttributeError (name : string)
| UnboundLocalError (name : string)
| AssertionError
| IndexError
| TypeError
| ValueError
| ZeroDivisionError
| NotImplementedError
| DomainViolation (name : string).

Inductive result (A : Type) : Type :=
| Ok (a : A)
| Err (e : PyError).
Arguments Ok {A} a.
Arguments Err {A} e.

Definition rbind {A B} (r : result A) (k : A -> result B) : result B :=
  match r with
  | Ok a => k a
  | Err e => Err e
  end.

Definition rmap {A B} (f : A -> B) (r : result A) : result B :=
  rbind r (fun a => Ok (f a)).

Declare Scope res_scope.
Delimit Scope res_scope with res.
Notation "x <- c ;; k" := (rbind c (fun x => k))
  (at level 61, c at next level, right associativity) : res_scope.

(** [vmap] of a fallible function over a list of slices: the first failing
    slice aborts the whole map. *)
Fixpoint mapM {A B} (f : A -> result B) (xs : list A) : result (list B) :=
  match xs with
  | [] => Ok []
  | x :: r =>
      (y <- f x ;; ys <- mapM f r ;; Ok (y :: ys))%res
  end.

Definition is_ok {A} (r : result A) : bool :=
  match r with Ok _ => true | Err _ => false end.

(** ** Scalars

    The floating-point numbers of the arrays, as an abstract carrier with
    the operations base.py and its collaborators apply.  [fnan] is the
    not-a-number value and [fltb x y] the comparison [x < y]. *)

Class Scalar (F : Type) : Type := {
  fzero : F;
  fone : F;
  fnan : F;
  fadd : F -> F -> F;
  fsub : F -> F -> F;
  fmul : F -> F -> F;
  fdiv : F -> F -> F;
  fneg : F -> F;
  flog : F -> F;
  fltb : F -> F -> bool;
  of_nat : nat -> F
}.

(** ** Lists cut into equal chunks *)

Section ChunkDefs.
Context {A : Type}.

(** The [i]-th block of [sz] consecutive elements. *)
Definition chunk (sz i : nat) (l : list A) : list A :=
  firstn sz (skipn (i * sz) l).

(** All complete blocks of [k] elements: the rows along the last axis. *)
Definition rows (k : nat) (l : list A) : list (list A) :=
  map (fun i => chunk k i l) (seq 0 (length l / k)).

Fixpoint zipWith {B C} (f : A -> B -> C) (xs : list A) (ys : list B) : list C :=
  match xs, ys with
  | x :: xs', y :: ys' => f x y :: zipWith f xs' ys'
  | _, _ => []
  end.
End ChunkDefs.

(** ** Arrays

    [jnp] arrays: a shape and the row-major data.  Only the array operations
    that base.py applies are defined. *)

Section Arrays.
Context {F : Type} {SF : Scalar F}.

Record Array : Type := mkArray { shape : list nat; data : list F }.

Definition ndim (a : Array) : nat := length (shape a).

Definition numel (s : list nat) : nat := fold_right Nat.mul 1 s.

(** [a.size] *)
Definition size (a : Array) : nat := numel (shape a).

(** [len(a)]: a 0-d array has no length. *)
Definition len (a : Array) : result nat :=
  match shape a with
  | [] => Err TypeError
  | n :: _ => Ok n
  end.

(** The [i]-th slice along axis 0. *)
Definition slice0 (i : nat) (a : Array) : Array :=
  mkArray (tl (shape a)) (chunk (numel (tl (shape a))) i (data a)).

(** [a[i]] for an index in range. *)
Definition index (a : Array) (i : nat) : result Array :=
  match shape a with
  | [] => Err IndexError
  | n :: _ => if i <? n then Ok (slice0 i a) else Err IndexError
  end.

(** The slices [vmap] maps over: axis 0 of its argument. *)
Definition unstack (a : Array) : result (list Array) :=
  match shape a with
  | [] => Err ValueError
  | n :: _ => Ok (map (fun i => slice0 i a) (seq 0 n))
  end.

(** The array [vmap] builds from the per-slice outputs.  [vmap] is
    embedded as one call of the mapped function per slice of the mapped
    axis, followed by [stack].  That is what JAX computes on an axis with
    at least one slice.  On an empty axis JAX still traces the mapped
    function once, to learn the shape of its output and with it any
    exception it raises; here the function is not run and the shape of the
    slices, read off the first one, is lost.  What is proved of mapped
    code is therefore stated for non-empty axes. *)
Definition stack (xs : list Array) : Array :=
  mkArray (length xs :: match xs with [] => [] | x :: _ => shape x end)
          (concat (map data xs)).

(** [a[idx]]: the rows of [a] picked by [idx], in that order. *)
Definition take (idx : list nat) (a : Array) : Array :=
  mkArray (length idx :: tl (shape a))
          (concat (map (fun i => data (slice0 i a)) idx)).

Definition scalar (x : F) : Array := mkArray [] [x].

(** [jnp.array(l)] for a Python list of scalars. *)
Definition np_array (l : list F) : Array := mkArray [length l] l.

(** [jnp.ones(n)] *)
Definition ones (n : nat) : Array := mkArray [n] (repeat fone n).

(** [c * a] for a Python scalar [c]. *)
Definition scale_by (c : F) (a : Array) : Array :=
  mkArray (shape a) (map (fmul c) (data a)).

(** [jnp.log(a)] *)
Definition np_log (a : Array) : Array :=
  mkArray (shape a) (map flog (data a)).

Definition fsum (l : list F) : F := fold_left fadd l fzero.

(** [jnp.sum(a)] and [a.sum()] *)
Definition np_sum (a : Array) : F := fsum (data a).

(** [a.sum(axis=0)] *)
Definition sum_axis0 (a : Array) : result Array :=
  match shape a with
  | [] => Err ValueError
  | n :: s =>
      Ok (mkArray s
            (fold_left (zipWith fadd)
               (map (fun i => chunk (numel s) i (data a)) (seq 0 n))
               (repeat fzero (numel s))))
  end.

Fixpoint shape_eqb (s t : list nat) : bool :=
  match s, t with
  | [], [] => true
  | x :: s', y :: t' => (x =? y) && shape_eqb s' t'
  | _, _ => false
  end.

(** [s] holds the trailing dimensions of [t]. *)
Definition suffixb (s t : list nat) : bool :=
  (length s <=? length t) && shape_eqb s (skipn (length t - length s) t).

(** Elementwise [a op b] with NumPy broadcasting of the operand of lower
    rank along the leading axes of the other.  Stretching of axes of size
    one is not modelled: such shapes are reported as a [ValueError]. *)
Definition broadcast2 (op : F -> F -> F) (a b : Array) : result Array :=
  if suffixb (shape a) (shape b) then
    Ok (mkArray (shape b)
          (concat (map (fun r => zipWith op (data a) r) (rows (size a) (data b)))))
  else if suffixb (shape b) (shape a) then
    Ok (mkArray (shape a)
          (concat (map (fun r => zipWith op r (data b)) (rows (size b) (data a)))))
  else Err ValueError.

Definition np_add : Array -> Array -> result Array := broadcast2 fadd.
Definition np_mul : Array -> Array -> result Array := broadcast2 fmul.

(** [len(a) / len(b)] on Python integers. *)
Definition py_div (n k : nat) : result F :=
  if k =? 0 then Err ZeroDivisionError else Ok (fdiv (of_nat n) (of_nat k)).

(** *** Distributions *)

(** [tfd.Categorical(probs=...)] *)
Record Categorical : Type := mkCategorical { probs_parameter : Array }.

(** An emission distribution, as far as base.py uses one. *)
Record Distribution : Type := mkDistribution {
  log_prob : Array -> Array;
  event_shape : list nat
}.

(** [tfd.Dirichlet(concentration)] *)
Record Dirichlet : Type := mkDirichlet { concentration : Array }.

(** The closed form of the mode of a Dirichlet distribution,
    [(alpha_i - 1) / (sum alpha - K)] elementwise. *)
Definition mode_row (alpha : list F) : list F :=
  let total := fsum alpha in
  map (fun a => fdiv (fsub a fone) (fsub total (of_nat (length alpha)))) alpha.

(** Every component of the concentration exceeds one: the condition under
    which the mode is defined. *)
Definition mode_defined (alpha : list F) : bool :=
  forallb (fun a => fltb fone a) alpha.

(** Modelled from the spec: the mode of one Dirichlet distribution as the
    distribution library reports it.  It is the closed form where every
    component of the concentration exceeds one; where some component is at
    most one the mode is undefined, and the library fills the whole row
    with not-a-number. *)
Definition Dirichlet_mode_row (alpha : list F) : list F :=
  if mode_defined alpha then mode_row alpha else map (fun _ => fnan) alpha.

(** Modelled from the spec: [tfd.Dirichlet.mode] belongs to the
    distribution library, which base.py imports.  The last axis of the
    concentration is the event axis, the leading axes index independent
    Dirichlet distributions. *)
Definition Dirichlet_mode (d : Dirichlet) : Array :=
  let c := concentration d in
  mkArray (shape c)
          (concat (map Dirichlet_mode_row (rows (last (shape c) 0) (data c)))).

(** The update the spec describes for one Dirichlet-distributed row: the
    posterior concentration is the prior concentration plus the expected
    counts, and the new value is the mode of that posterior. *)
Definition dirichlet_posterior_mode (prior counts : list F) : list F :=
  Dirichlet_mode_row (zipWith fadd prior counts).

(** [a] has shape [s] and its data fill that shape. *)
Definition well_shaped (s : list nat) (a : Array) : bool :=
  shape_eqb (shape a) s && (length (data a) =? numel s).

(** *** Posteriors *)

(** The posterior record the inference primitives return.  Under [vmap]
    every field gains a leading batch axis. *)
Record Posterior : Type := mkPosterior {
  marginal_loglik : Array;
  filtered_probs : Array;
  smoothed_probs : Array;
  initial_probs : Array;
  trans_probs : Array
}.

(** [posterior.trans_probs = t] *)
Definition set_trans_probs (t : Array) (p : Posterior) : Posterior :=
  mkPosterior (marginal_loglik p) (filtered_probs p) (smoothed_probs p)
              (initial_probs p) t.

Definition stack_posteriors (ps : list Posterior) : Posterior :=
  mkPosterior (stack (map marginal_loglik ps)) (stack (map filtered_probs ps))
              (stack (map smoothed_probs ps)) (stack (map initial_probs ps))
              (stack (map trans_probs ps)).

Definition slice_posterior (i : nat) (p : Posterior) : Posterior :=
  mkPosterior (slice0 i (marginal_loglik p)) (slice0 i (filtered_probs p))
              (slice0 i (smoothed_probs p)) (slice0 i (initial_probs p))
              (slice0 i (trans_probs p)).

(** Arrays of one shape whose data fill it. *)
Definition uniform (s : list nat) (xs : list Array) : Prop :=
  Forall (fun x => shape x = s /\ length (data x) = numel s) xs.

Definition take_posterior (idx : list nat) (p : Posterior) : Posterior :=
  mkPosterior (take idx (marginal_loglik p)) (take idx (filtered_probs p))
              (take idx (smoothed_probs p)) (take idx (initial_probs p))
              (take idx (trans_probs p)).
End Arrays.

Arguments Array F : clear implicits.
Arguments Categorical F : clear implicits.
Arguments Distribution F : clear implicits.
Arguments Dirichlet F : clear implicits.
Arguments Posterior F : clear implicits.

(** ** External collaborators

    base.py imports these; they are taken as given. *)

(** [ssm_jax.hmm.inference] *)
Class Inference (F : Type) : Type := {
  hmm_filter : Array F -> Array F -> Array F -> Posterior F;
  hmm_posterior_mode : Array F -> Array F -> Array F -> Array F;
  hmm_smoother : Array F -> Array F -> Array F -> Posterior F;
  hmm_two_filter_smoother : Array F -> Array F -> Array F -> Posterior F;
  compute_transition_probs : Array F -> Posterior F -> bool -> Array F
}.

(** The bijectors base.py builds: [tfb.SoftmaxCentered()], [tfb.Softplus()]
    and [tfb.Invert(...)] of a bijector. *)
Inductive Bijector : Type :=
| SoftmaxCentered
| Softplus
| Invert (b : Bijector).

(** [tensorflow_probability] bijectors: the two directions of the primitive
    transforms, and the domain test a [Parameter] applies to a constrained
    value. *)
Class Transforms (F : Type) : Type := {
  tfb_forward : Bijector -> Array F -> Array F;
  tfb_inverse : Bijector -> Array F -> Array F;
  in_domain : Bijector -> Array F -> bool
}.

(** [optax] optimizers and [jax.random], as far as [run_sgd] needs them.
    [opt_update] stands for one step [value_and_grad] / [optimizer.update] /
    [apply_updates] on the loss as a function of the parameters. *)
Class Optim (F : Type) : Type := {
  Optimizer : Type;
  OptState : Type;
  opt_init : Optimizer -> list (Array F) -> OptState;
  opt_update : Optimizer -> (list (Array F) -> result F) ->
               list (Array F) -> OptState -> list (Array F) * OptState;
  PRNGKey : Type;
  split : PRNGKey -> nat -> list PRNGKey;
  permutation : PRNGKey -> nat -> list nat
}.

(** ** Parameters and the model object *)

Section Model.
Context {F : Type} {SF : Scalar F} {TR : Transforms F}.

Fixpoint apply_bijector (inverted : bool) (b : Bijector) (x : Array F) : Array F :=
  match b with
  | Invert b' => apply_bijector (negb inverted) b' x
  | _ => if inverted then tfb_inverse b x else tfb_forward b x
  end.

Definition forward : Bijector -> Array F -> Array F := apply_bijector false.
Definition inverse : Bijector -> Array F -> Array F := apply_bijector true.

(** Modelled from the spec: [Parameter] lives in [ssm_jax.abstractions].
    The constrained value is the source of truth, the unconstrained one is
    derived through the bijector, and a frozen parameter is excluded from
    the flattened vector.  ([Parameter] is reserved in Rocq, hence the
    record's name.) *)
Record ModelParameter : Type := mkParameter {
  value : Array F;
  bijector : Bijector;
  is_frozen : bool
}.

(** [prm.unconstrained_value] *)
Definition unconstrained_value (p : ModelParameter) : Array F :=
  forward (bijector p) (value p).

(** The [Parameter] attributes of [self], by attribute name, in the order
    in which the flattened vector lists them. *)
Definition Model : Type := list (string * ModelParameter).

Definition Params : Type := list (Array F).

(** [self.<name>] *)
Fixpoint getattr (name : string) (self : Model) : result ModelParameter :=
  match self with
  | [] => Err (AttributeError name)
  | (n, p) :: r => if String.eqb n name then Ok p else getattr name r
  end.

(** Modelled from the spec: [self.<name>.value = v].  The setter accepts a
    constrained value, validates it against the bijector's domain and
    stores it; a value outside the domain is fatal. *)
Fixpoint assign_value (name : string) (v : Array F) (self : Model) : result Model :=
  match self with
  | [] => Err (AttributeError name)
  | (n, p) :: r =>
      if String.eqb n name then
        if in_domain (bijector p) v
        then Ok ((n, mkParameter v (bijector p) (is_frozen p)) :: r)
        else Err (DomainViolation name)
      else (r' <- assign_value name v r ;; Ok ((n, p) :: r'))%res
  end.

(** Modelled from the spec: the getter of [SSM.unconstrained_params], a
    view over the unconstrained values of all non-frozen parameters. *)
Fixpoint get_unconstrained_params (self : Model) : Params :=
  match self with
  | [] => []
  | (_, p) :: r =>
      if is_frozen p then get_unconstrained_params r
      else unconstrained_value p :: get_unconstrained_params r
  end.

(** Modelled from the spec: the setter of [SSM.unconstrained_params].  It
    writes back into every non-frozen parameter, re-applying the
    transform; frozen parameters are skipped. *)
Fixpoint set_unconstrained_params (values : Params) (self : Model) : Model :=
  match self with
  | [] => []
  | (n, p) :: r =>
      if is_frozen p then (n, p) :: set_unconstrained_params values r
      else match values with
           | [] => (n, p) :: r
           | u :: us =>
               (n, mkParameter (inverse (bijector p) u) (bijector p) (is_frozen p))
                 :: set_unconstrained_params us r
           end
  end.

(** *** Code that mutates [self]

    A computation takes the object and returns its result, or the
    exception it raised, together with the object as it then stands. *)
Definition M (A : Type) : Type := Model -> result A * Model.

Definition ret {A} (a : A) : M A := fun self => (Ok a, self).

Definition bind {A B} (c : M A) (k : A -> M B) : M B :=
  fun self =>
    match c self with
    | (Ok a, self') => k a self'
    | (Err e, self') => (Err e, self')
    end.

(** A read-only method call on [self]. *)
Definition call {A} (f : Model -> result A) : M A :=
  fun self => (f self, self).

(** A fallible update of [self]; on failure [self] is left as it was. *)
Definition update (f : Model -> result Model) : M unit :=
  fun self =>
    match f self with
    | Ok self' => (Ok tt, self')
    | Err e => (Err e, self)
    end.

(** [self.unconstrained_params = params] *)
Definition assign_unconstrained_params (params : Params) : M unit :=
  fun self => (Ok tt, set_unconstrained_params params self).

(** [self.unconstrained_params] *)
Definition read_unconstrained_params : M Params :=
  fun self => (Ok (get_unconstrained_params self), self).

(** The frozen parameters of the object, with their names. *)
Definition frozen_params (self : Model) : Model :=
  List.filter (fun np => is_frozen (snd np)) self.

(** A computation maintains a property of the object on every path,
    whether it returns or raises. *)
Definition preserves {A} (P : Model -> Prop) (c : M A) : Prop :=
  forall self, P self -> P (snd (c self)).

(** The loop variable [params] and the object after [i] iterations of a
    loop body that returns the next [params] with a value to record;
    [None] when an iteration raised. *)
Fixpoint loop_state {B} (body : Params -> M (Params * B)) (i : nat)
    (params : Params) (self : Model) : option (Params * Model) :=
  match i with
  | 0 => Some (params, self)
  | S j =>
      match body params self with
      | (Ok (params', _), self') => loop_state body j params' self'
      | (Err _, _) => None
      end
  end.
End Model.

Arguments ModelParameter F : clear implicits.
Arguments Model F : clear implicits.
Arguments Params F : clear implicits.
Arguments M F A : clear implicits.

Declare Scope py_scope.
Delimit Scope py_scope with py.
Notation "x <- c ;; k" := (bind c (fun x => k))
  (at level 61, c at next level, right associativity) : py_scope.
Notation "c ;;; k" := (bind c (fun _ => k))
  (at level 61, right associativity) : py_scope.


Fixpoint foldM_py {F A B} (f : B -> A -> M F B) (xs : list A) (b : B) : M F B :=
  match xs with
  | [] => ret b
  | x :: r => (b' <- f b x ;; foldM_py f r b')%py
  end.

(** Consecutive groups of [k] elements; the last group may be shorter. *)
Fixpoint groups_of {A} (fuel k : nat) (l : list A) : list (list A) :=
  match fuel with
  | 0 => []
  | S fuel' =>
      match l with
      | [] => []
      | _ => firstn k l :: groups_of fuel' k (skipn k l)
      end
  end.

(** ** ssm_jax.optimize *)

(** A dataset is a pytree of arrays with a common leading axis. *)
Class Dataset (F D : Type) : Type := {
  tree_len : D -> result nat;
  tree_take : list nat -> D -> D
}.

#[global] Instance Dataset_Array {F} : Dataset F (Array F) :=
  {| tree_len := @len F; tree_take := @take F |}.

#[global] Instance Dataset_pair {F} : Dataset F (Array F * Posterior F) :=
  {| tree_len := fun d => len (fst d);
     tree_take := fun idx d => (take idx (fst d), take_posterior idx (snd d)) |}.

Section Optimize.
Context {F : Type} {SF : Scalar F} {TR : Transforms F} {OPT : Optim F}.

(** Modelled from the spec: minibatch sampling inside [run_sgd].  The
    minibatches are contiguous or, when shuffling, permuted subsets of
    whole sequences: the sequence indices are permuted with the seed when
    [shuffle] is set and cut into groups of [batch_size]. *)
Definition minibatch_indices (key : PRNGKey) (n batch_size : nat) (shuffle : bool)
  : result (list (list nat)) :=
  if batch_size =? 0 then Err ValueError
  else
    let perm := if shuffle then permutation key n else seq 0 n in
    Ok (groups_of (length perm) batch_size perm).

(** Modelled from the spec: the minibatches of one epoch, each a subset of
    whole sequences cut from the dataset along its leading axis. *)
Definition sample_minibatches {D} {DS : Dataset F D}
    (key : PRNGKey) (dataset : D) (batch_size : nat) (shuffle : bool)
  : result (list D) :=
  (n <- tree_len dataset ;;
   groups <- minibatch_indices key n batch_size shuffle ;;
   Ok (map (fun idx => tree_take idx dataset) groups))%res.

(** Modelled from the spec: one step of [run_sgd], which computes the loss
    on a minibatch and descends it with the external optimizer. *)
Definition sgd_step {D} (loss_fn : Params F -> D -> M F F) (optimizer : Optimizer)
    (st : Params F * OptState * list F) (minibatch : D)
  : M F (Params F * OptState * list F) :=
  let '(params, opt_state, losses) := st in
  (this_loss <- loss_fn params minibatch ;;
   self <- call (fun self => Ok self) ;;
   let '(params', opt_state') :=
     opt_update optimizer (fun p => fst (loss_fn p minibatch self)) params opt_state in
   ret (params', opt_state', losses ++ [this_loss]))%py.

(** Modelled from the spec: one pass of [run_sgd] over the dataset. *)
Definition sgd_epoch {D} {DS : Dataset F D}
    (loss_fn : Params F -> D -> M F F) (optimizer : Optimizer)
    (dataset : D) (batch_size : nat) (shuffle : bool)
    (st : Params F * OptState * list F) (key : PRNGKey)
  : M F (Params F * OptState * list F) :=
  (minibatches <- call (fun _ => sample_minibatches key dataset batch_size shuffle) ;;
   foldM_py (sgd_step loss_fn optimizer) minibatches st)%py.

(** Modelled from the spec: the generic stochastic-gradient optimizer
    [(loss_fn, init_params, data, optimizer_config, batch_size,
    num_epochs, shuffle, seed) -> (final_params, loss_trajectory)].  It
    runs a fixed number of epochs over the dataset, evaluates the loss on
    each minibatch of an epoch and lets the optimizer descend it; the
    trajectory stores the output of [loss_fn] at each step. *)
Definition run_sgd {D} {DS : Dataset F D}
    (loss_fn : Params F -> D -> M F F) (params : Params F) (dataset : D)
    (optimizer : Optimizer) (batch_size num_epochs : nat)
    (shuffle : bool) (key : PRNGKey)
  : M F (Params F * Array F) :=
  (st <- foldM_py (sgd_epoch loss_fn optimizer dataset batch_size shuffle)
                  (split key num_epochs)
                  (params, opt_init optimizer params, []) ;;
   let '(params', _, losses) := st in
   ret (params', np_array losses))%py.
End Optimize.

(** ** The model interface

    The methods a concrete HMM class supplies to [BaseHMM]; each receives
    [self].  [_conditional_logliks] is the attribute that
    [StandardHMM._m_step_emissions] looks up on [self]: neither [BaseHMM]
    nor [StandardHMM] defines it, so it is [None] unless another class of
    the object does. *)

Definition Kwargs (F : Type) : Type := list (string * Array F).

Record HMMClass (F : Type) : Type := mkHMMClass {
  initial_distribution : Model F -> result (Categorical F);
  transition_distribution : Model F -> nat -> Kwargs F -> result (Categorical F);
  emission_distribution : Model F -> nat -> result (Distribution F);
  log_prior : Model F -> result F;
  _conditional_logliks : option (Model F -> Array F -> result (Array F))
}.

Module BaseHMM.
Section BaseHMM.
Context {F : Type} {SF : Scalar F} {INF : Inference F}
        {TR : Transforms F} {OPT : Optim F}.
Variable cls : HMMClass F.

Local Open Scope res_scope.

Definition num_states (self : Model F) : result nat :=
  d <- initial_distribution cls self ;;
  match shape (probs_parameter d) with
  | [] => Err IndexError
  | n :: _ => Ok n
  end.

(** [self.emission_distribution(0).event_shape[0]] *)
Definition num_obs (self : Model F) : result nat :=
  d <- emission_distribution cls self 0 ;;
  match event_shape d with
  | [] => Err IndexError
  | n :: _ => Ok n
  end.

Definition _compute_initial_probs (self : Model F) : result (Array F) :=
  d <- initial_distribution cls self ;;
  Ok (probs_parameter d).

(** [vmap(lambda state: self.transition_distribution(state, **covariate)
    .probs_parameter())(jnp.arange(self.num_states))] *)
Definition transition_rows (self : Model F) (covariate : Kwargs F)
  : result (Array F) :=
  k <- num_states self ;;
  rs <- mapM (fun state =>
                d <- transition_distribution cls self state covariate ;;
                Ok (probs_parameter d))
             (seq 0 k) ;;
  Ok (stack rs).

(** The keyword arguments that [vmap(f)] maps over when it is applied to
    the covariates: axis 0 of every covariate, all of one size. *)
Definition kwargs_slices (covariates : Kwargs F) : result (list (Kwargs F)) :=
  match covariates with
  | [] => Ok []
  | (_, a) :: _ =>
      b <- match shape a with [] => Err ValueError | n :: _ => Ok n end ;;
      if forallb (fun nc : string * Array F =>
                    match shape (snd nc) with
                    | [] => false
                    | n :: _ => n =? b
                    end) covariates
      then Ok (map (fun i =>
                      map (fun nc : string * Array F => (fst nc, slice0 i (snd nc)))
                          covariates)
                   (seq 0 b))
      else Err ValueError
  end.

Definition _compute_transition_matrices (self : Model F) (covariates : Kwargs F)
  : result (Array F) :=
  if 0 <? length covariates then
    slices <- kwargs_slices covariates ;;
    ms <- mapM (transition_rows self) slices ;;
    Ok (stack ms)
  else
    transition_rows self [].

Definition _compute_conditional_logliks (self : Model F) (emissions : Array F)
  : result (Array F) :=
  steps <- unstack emissions ;;
  rs <- mapM (fun emission =>
                k <- num_states self ;;
                ls <- mapM (fun state =>
                              d <- emission_distribution cls self state ;;
                              Ok (log_prob d emission))
                           (seq 0 k) ;;
                Ok (stack ls))
             steps ;;
  Ok (stack rs).

(** *** Basic inference *)

Definition marginal_log_prob (self : Model F) (emissions : Array F)
  : result (Array F) :=
  initial_probs <- _compute_initial_probs self ;;
  transition_matrices <- _compute_transition_matrices self [] ;;
  logliks <- _compute_conditional_logliks self emissions ;;
  let post := hmm_filter initial_probs transition_matrices logliks in
  let ll := marginal_loglik post in
  Ok ll.

Definition most_likely_states (self : Model F) (emissions : Array F)
  : result (Array F) :=
  initial_probs <- _compute_initial_probs self ;;
  transition_matrices <- _compute_transition_matrices self [] ;;
  logliks <- _compute_conditional_logliks self emissions ;;
  Ok (hmm_posterior_mode initial_probs transition_matrices logliks).

Definition filter (self : Model F) (emissions : Array F)
  : result (Posterior F) :=
  initial_probs <- _compute_initial_probs self ;;
  transition_matrices <- _compute_transition_matrices self [] ;;
  logliks <- _compute_conditional_logliks self emissions ;;
  Ok (hmm_filter initial_probs transition_matrices logliks).

Definition smoother (self : Model F) (emissions : Array F)
  : result (Posterior F) :=
  initial_probs <- _compute_initial_probs self ;;
  transition_matrices <- _compute_transition_matrices self [] ;;
  logliks <- _compute_conditional_logliks self emissions ;;
  Ok (hmm_smoother initial_probs transition_matrices logliks).

(** *** Expectation-maximization *)

Definition _single_e_step (self : Model F) (emissions : Array F)
  : result (Posterior F) :=
  transition_matrices <- _compute_transition_matrices self [] ;;
  initial_probs <- _compute_initial_probs self ;;
  logliks <- _compute_conditional_logliks self emissions ;;
  let posterior := hmm_two_filter_smoother initial_probs transition_matrices logliks in
  let posterior :=
    set_trans_probs
      (compute_transition_probs transition_matrices posterior
                                (ndim transition_matrices =? 2))
      posterior in
  Ok posterior.

Definition e_step (self : Model F) (batch_emissions : Array F)
  : result (Posterior F) :=
  sequences <- unstack batch_emissions ;;
  posteriors <- mapM (_single_e_step self) sequences ;;
  Ok (stack_posteriors posteriors).

(** [vmap(f)(minibatch_emissions, minibatch_posteriors)] for a scalar
    valued [f]: both arguments are mapped over axis 0 and every mapped
    array must have the same leading size. *)
Definition leading_is (n : nat) (a : Array F) : bool :=
  match shape a with
  | [] => false
  | m :: _ => m =? n
  end.

Definition vmap2 (f : Array F -> Posterior F -> result F)
    (emissions : Array F) (posteriors : Posterior F) : result (Array F) :=
  n <- match shape emissions with [] => Err ValueError | n :: _ => Ok n end ;;
  if leading_is n (marginal_loglik posteriors)
     && leading_is n (filtered_probs posteriors)
     && leading_is n (smoothed_probs posteriors)
     && leading_is n (initial_probs posteriors)
     && leading_is n (trans_probs posteriors)
  then
    vals <- mapM (fun i => f (slice0 i emissions) (slice_posterior i posteriors))
                 (seq 0 n) ;;
    Ok (np_array vals)
  else Err ValueError.

Definition _single_expected_log_joint (self : Model F)
    (emissions : Array F) (posterior : Posterior F) : result F :=
  initial_probs <- _compute_initial_probs self ;;
  trans_matrices <- _compute_transition_matrices self [] ;;
  log_likelihoods <- _compute_conditional_logliks self emissions ;;
  let expected_states := smoothed_probs posterior in
  let trans_probs := trans_probs posterior in
  e0 <- index expected_states 0 ;;
  t <- np_mul e0 (np_log initial_probs) ;;
  let lp := np_sum t in
  t <- np_mul trans_probs (np_log trans_matrices) ;;
  let lp := fadd lp (np_sum t) in
  t <- np_mul expected_states log_likelihoods ;;
  let lp := fadd lp (np_sum t) in
  Ok lp.

Local Close Scope res_scope.
Local Open Scope py_scope.

Definition neg_expected_log_joint (batch_emissions : Array F)
    (params : Params F) (minibatch : Array F * Posterior F) : M F F :=
  let '(minibatch_emissions, minibatch_posteriors) := minibatch in
  scale <- call (fun _ =>
                   (n <- len batch_emissions ;;
                    k <- len minibatch_emissions ;;
                    py_div n k)%res) ;;
  assign_unconstrained_params params ;;;
  log_prior <- call (log_prior cls) ;;
  minibatch_lps <- call (fun self =>
                           vmap2 (_single_expected_log_joint self)
                                 minibatch_emissions minibatch_posteriors) ;;
  let expected_log_joint := fadd log_prior (fmul (np_sum minibatch_lps) scale) in
  ret (fdiv (fneg expected_log_joint) (of_nat (size batch_emissions))).

(** [run_sgd] is called without [batch_size], [shuffle] and [key]; its
    defaults for them are arguments here. *)
Definition m_step (default_batch_size : nat) (default_shuffle : bool)
    (default_key : PRNGKey)
    (batch_emissions : Array F) (batch_posteriors : Posterior F)
    (optimizer : Optimizer) (num_mstep_iters : nat) : M F unit :=
  params0 <- read_unconstrained_params ;;
  r <- run_sgd (neg_expected_log_joint batch_emissions) params0
               (batch_emissions, batch_posteriors)
               optimizer default_batch_size num_mstep_iters
               default_shuffle default_key ;;
  let '(params, losses) := r in
  assign_unconstrained_params params.

(** [self.m_step] is dispatched on the class of [self]; [fit_em] takes the
    method it resolves to, with the keyword arguments already bound. *)
Variable self_m_step : Array F -> Posterior F -> M F unit.

Definition em_step (batch_emissions : Array F) (params : Params F)
  : M F (Params F * F) :=
  assign_unconstrained_params params ;;;
  batch_posteriors <- call (fun self => e_step self batch_emissions) ;;
  lp0 <- call (log_prior cls) ;;
  let lp := fadd lp0 (np_sum (marginal_loglik batch_posteriors)) in
  self_m_step batch_emissions batch_posteriors ;;;
  params' <- read_unconstrained_params ;;
  ret (params', lp).

(** The [for _ in trange(num_iters)] loop, with its two loop variables. *)
Fixpoint em_loop (batch_emissions : Array F) (num_iters : nat)
    (params : Params F) (log_probs : list F) : M F (Params F * list F) :=
  match num_iters with
  | 0 => ret (params, log_probs)
  | S n =>
      r <- em_step batch_emissions params ;;
      let '(params', lp) := r in
      em_loop batch_emissions n params' (log_probs ++ [lp])
  end.

Definition fit_em (batch_emissions : Array F) (num_iters : nat) : M F (Array F) :=
  params <- read_unconstrained_params ;;
  r <- em_loop batch_emissions num_iters params [] ;;
  let '(params', log_probs) := r in
  assign_unconstrained_params params' ;;;
  ret (np_array log_probs).

Definition _loss_fn (batch_emissions : Array F)
    (params : Params F) (minibatch_emissions : Array F) : M F F :=
  assign_unconstrained_params params ;;;
  scale <- call (fun _ =>
                   (n <- len batch_emissions ;;
                    k <- len minibatch_emissions ;;
                    py_div n k)%res) ;;
  minibatch_lls <- call (fun self =>
                           (sequences <- unstack minibatch_emissions ;;
                            lls <- mapM (marginal_log_prob self) sequences ;;
                            Ok (stack lls))%res) ;;
  lp0 <- call (log_prior cls) ;;
  let lp := fadd lp0 (fmul (np_sum minibatch_lls) scale) in
  ret (fdiv (fneg lp) (of_nat (size batch_emissions))).

Definition fit_sgd (batch_emissions : Array F) (optimizer : Optimizer)
    (batch_size num_epochs : nat) (shuffle : bool) (key : PRNGKey)
  : M F (Array F) :=
  params0 <- read_unconstrained_params ;;
  r <- run_sgd (_loss_fn batch_emissions) params0 batch_emissions
               optimizer batch_size num_epochs shuffle key ;;
  let '(params, losses) := r in
  assign_unconstrained_params params ;;;
  ret losses.
End BaseHMM.
End BaseHMM.

Module StandardHMM.
Section StandardHMM.
Context {F : Type} {SF : Scalar F} {INF : Inference F}
        {TR : Transforms F} {OPT : Optim F}.

Local Open Scope res_scope.

(** [shape[-1]] *)
Definition last_dim (s : list nat) : result nat :=
  match rev s with
  | [] => Err IndexError
  | k :: _ => Ok k
  end.

Definition py_assert (b : bool) : result unit :=
  if b then Ok tt else Err AssertionError.

(** The constructor.  The two concentrations are Python scalars, as their
    defaults are; [Parameter(...)] stores its arguments. *)
Definition __init__ (initial_probabilities transition_matrix : Array F)
    (initial_probs_concentration transition_matrix_concentration : F)
  : result (Model F) :=
  num_states <- last_dim (shape transition_matrix) ;;
  _ <- py_assert (shape_eqb (shape initial_probabilities) [num_states]) ;;
  _ <- py_assert (shape_eqb (shape transition_matrix) [num_states; num_states]) ;;
  Ok [ ("_initial_probs",
        mkParameter initial_probabilities (Invert SoftmaxCentered) false);
       ("_transition_matrix",
        mkParameter transition_matrix (Invert SoftmaxCentered) false);
       ("_initial_probs_concentration",
        mkParameter (scale_by initial_probs_concentration (ones num_states))
                    (Invert Softplus) true);
       ("_transition_matrix_concentration",
        mkParameter (scale_by transition_matrix_concentration (ones num_states))
                    (Invert Softplus) true) ].

Definition initial_distribution (self : Model F) : result (Categorical F) :=
  p <- getattr "_initial_probs" self ;;
  Ok (mkCategorical (value p)).

(** [transition_distribution(self, state)] takes no covariates. *)
Definition transition_distribution (self : Model F) (state : nat)
    (covariate : Kwargs F) : result (Categorical F) :=
  match covariate with
  | [] =>
      p <- getattr "_transition_matrix" self ;;
      row <- index (value p) state ;;
      Ok (mkCategorical row)
  | _ :: _ => Err TypeError
  end.

(** The class of an object whose concrete class supplies the emission
    distribution and the log prior, and possibly further attributes. *)
Definition class_of
    (emission_distribution : Model F -> nat -> result (Distribution F))
    (log_prior : Model F -> result F)
    (conditional_logliks : option (Model F -> Array F -> result (Array F)))
  : HMMClass F :=
  mkHMMClass initial_distribution transition_distribution
             emission_distribution log_prior conditional_logliks.

Variable cls : HMMClass F.

(** [self.<name>(args)]: attribute lookup, then the call. *)
Definition call_method {A B} (name : string)
    (method : option (Model F -> A -> result B)) (self : Model F) (a : A)
  : result B :=
  match method with
  | None => Err (AttributeError name)
  | Some f => f self a
  end.

(** Reading a local variable of the enclosing function body. *)
Definition load_local {A} (name : string) (v : option A) : result A :=
  match v with
  | None => Err (UnboundLocalError name)
  | Some x => Ok x
  end.

(** [lp] is assigned in the body, hence local to it, and unbound on
    entry; [lp += e] first loads [lp]. *)
Definition _single_expected_log_like (self : Model F)
    (emissions : Array F) (posterior : Posterior F) : result F :=
  let lp : option F := None in
  log_likelihoods <- call_method "_conditional_logliks"
                                 (_conditional_logliks cls) self emissions ;;
  let expected_states := smoothed_probs posterior in
  lp_old <- load_local "lp" lp ;;
  t <- np_mul expected_states log_likelihoods ;;
  let lp := Some (fadd lp_old (np_sum t)) in
  load_local "lp" lp.

Local Close Scope res_scope.
Local Open Scope py_scope.

Definition _m_step_initial_probs (batch_emissions : Array F)
    (batch_posteriors : Posterior F) : M F unit :=
  conc <- call (getattr "_initial_probs_concentration") ;;
  counts <- call (fun _ => sum_axis0 (initial_probs batch_posteriors)) ;;
  alpha <- call (fun _ => np_add (value conc) counts) ;;
  let post := mkDirichlet alpha in
  update (assign_value "_initial_probs" (Dirichlet_mode post)).

Definition _m_step_transition_matrix (batch_emissions : Array F)
    (batch_posteriors : Posterior F) : M F unit :=
  conc <- call (getattr "_transition_matrix_concentration") ;;
  counts <- call (fun _ => sum_axis0 (trans_probs batch_posteriors)) ;;
  alpha <- call (fun _ => np_add (value conc) counts) ;;
  let post := mkDirichlet alpha in
  update (assign_value "_transition_matrix" (Dirichlet_mode post)).

Definition neg_expected_log_joint (batch_emissions : Array F)
    (params : Params F) (minibatch : Array F * Posterior F) : M F F :=
  let '(minibatch_emissions, minibatch_posteriors) := minibatch in
  scale <- call (fun _ =>
                   (n <- len batch_emissions ;;
                    k <- len minibatch_emissions ;;
                    py_div n k)%res) ;;
  assign_unconstrained_params params ;;;
  log_prior <- call (log_prior cls) ;;
  minibatch_ells <- call (fun self =>
                            BaseHMM.vmap2 (_single_expected_log_like self)
                                          minibatch_emissions minibatch_posteriors) ;;
  let expected_log_joint := fadd log_prior (fmul (np_sum minibatch_ells) scale) in
  ret (fdiv (fneg expected_log_joint) (of_nat (size batch_emissions))).

Definition _m_step_emissions (default_batch_size : nat) (default_shuffle : bool)
    (default_key : PRNGKey)
    (batch_emissions : Array F) (batch_posteriors : Posterior F)
    (optimizer : Optimizer) (num_mstep_iters : nat) : M F unit :=
  params0 <- read_unconstrained_params ;;
  r <- run_sgd (neg_expected_log_joint batch_emissions) params0
               (batch_emissions, batch_posteriors)
               optimizer default_batch_size num_mstep_iters
               default_shuffle default_key ;;
  let '(params, losses) := r in
  assign_unconstrained_params params.

Definition m_step (default_batch_size : nat) (default_shuffle : bool)
    (default_key : PRNGKey)
    (batch_emissions : Array F) (batch_posteriors : Posterior F)
    (optimizer : Optimizer) (num_mstep_iters : nat) : M F unit :=
  _m_step_initial_probs batch_emissions batch_posteriors ;;;
  _m_step_transition_matrix batch_emissions batch_posteriors ;;;
  _m_step_emissions default_batch_size default_shuffle default_key
                    batch_emissions batch_posteriors optimizer num_mstep_iters.

(** The properties [initial_probs] and [transition_matrix] hand out the
    stored parameters. *)
Definition initial_probs (self : Model F) : result (ModelParameter F) :=
  getattr "_initial_probs" self.

Definition transition_matrix (self : Model F) : result (ModelParameter F) :=
  getattr "_transition_matrix" self.

(** The abstract method: a concrete class has to override it. *)
Definition emission_distribution (self : Model F) (state : nat)
  : result (Distribution F) :=
  Err NotImplementedError.

(** [StandardHMM] itself, with no concrete class below it. *)
Definition abstract_class (log_prior : Model F -> result F) : HMMClass F :=
  class_of emission_distribution log_prior None.
End StandardHMM.
End StandardHMM.

(** ** A concrete instance

    Rational scalars and small stand-ins for the collaborators, on which the
    definitions above can be run. *)

Module Concrete.
(** The rationals have no not-a-number: [fnan] is a stand-in, which the
    runs below never produce. *)
#[global] Instance Scalar_Q : Scalar Q := {|
  fzero := 0%Q;
  fone := 1%Q;
  fnan := 0%Q;
  fltb := fun x y => negb (Qle_bool y x);
  fadd := fun x y => Qred (x + y)%Q;
  fsub := fun x y => Qred (x - y)%Q;
  fmul := fun x y => Qred (x * y)%Q;
  fdiv := fun x y => Qred (x / y)%Q;
  fneg := fun x => Qred (- x)%Q;
  flog := fun x => Qred (x - 1)%Q;
  of_nat := fun n => inject_Z (Z.of_nat n)
|}.

Definition vec (l : list Q) : Array Q := mkArray [length l] l.

Definition mat (r c : nat) (l : list Q) : Array Q := mkArray [r; c] l.

(** A filter that scores a sequence by the sum of its log-likelihoods. *)
Definition toy_filter (ip tm ll : Array Q) : Posterior Q :=
  mkPosterior (scalar (np_sum ll)) ll ll ip tm.

#[global] Instance Inference_Q : Inference Q := {|
  hmm_filter := toy_filter;
  hmm_posterior_mode := fun ip tm ll => ip;
  hmm_smoother := toy_filter;
  hmm_two_filter_smoother := toy_filter;
  compute_transition_probs := fun tm post reduce_sum =>
    if reduce_sum then tm else stack [tm]
|}.

Definition all_rows (k : nat) (P : list Q -> bool) (a : Array Q) : bool :=
  forallb P (rows k (data a)).

Definition on_simplex (r : list Q) : bool :=
  forallb (fun x => Qle_bool 0 x) r && Qeq_bool (fold_left Qplus r 0%Q) 1.

#[global] Instance Transforms_Q : Transforms Q := {|
  tfb_forward := fun _ x => x;
  tfb_inverse := fun _ x => x;
  in_domain := fun b a =>
    match b with
    | Invert SoftmaxCentered => all_rows (last (shape a) 0) on_simplex a
    | Invert Softplus => forallb (fun x => negb (Qle_bool x 0)) (data a)
    | _ => true
    end
|}.

(** *** Transforms that normalise

    The centred softmax in the coordinates of the ratios: its inverse
    keeps the ratio of every leading component of a row to the last one
    (the exponential of what the library stores), and its forward map puts
    the last ratio, one, back and divides by the sum.  As with the
    library's bijector, the round trip is the identity on the simplex and
    normalises a positive row that does not sum to one. *)
Definition ratios_row (r : list Q) : list Q :=
  map (fun x => Qred (x / last r 1)%Q) (removelast r).

Definition normalise_row (u : list Q) : list Q :=
  let z := u ++ [1%Q] in
  map (fun x => Qred (x / fold_left Qplus z 0)%Q) z.

Definition on_rows (f : list Q -> list Q) (k' : nat) (a : Array Q) : Array Q :=
  mkArray (removelast (shape a) ++ [k'])
          (concat (map f (rows (last (shape a) 0) (data a)))).

Definition Transforms_normalising : Transforms Q := {|
  tfb_forward := fun b x =>
    match b with
    | SoftmaxCentered => on_rows normalise_row (S (last (shape x) 0)) x
    | _ => x
    end;
  tfb_inverse := fun b x =>
    match b with
    | SoftmaxCentered => on_rows ratios_row (pred (last (shape x) 0)) x
    | _ => x
    end;
  in_domain := @in_domain Q Transforms_Q
|}.

(** An optimizer that moves every coordinate by the loss it observes. *)
#[global] Instance Optim_Q : Optim Q := {|
  Optimizer := unit;
  OptState := nat;
  opt_init := fun _ _ => 0;
  opt_update := fun _ loss params st =>
    match loss params with
    | Ok l => (map (fun a => mkArray (shape a) (map (fun x => Qred (x - l)%Q) (data a)))
                   params, S st)
    | Err _ => (params, S st)
    end;
  PRNGKey := nat;
  split := fun key n => map (fun i => key + i) (seq 0 n);
  permutation := fun key n => rev (seq 0 n)
|}.

Definition toy_key : @PRNGKey Q Optim_Q := 0.

Definition toy_optimizer : @Optimizer Q Optim_Q := tt.

(** Emissions are scored by their sum, weighted by the state. *)
Definition toy_emission (self : Model Q) (state : nat) : result (Distribution Q) :=
  Ok (mkDistribution
        (fun e => scalar (Qred (inject_Z (Z.of_nat (S state)) * np_sum e)%Q))
        [1]).

Definition toy_log_prior (self : Model Q) : result Q := Ok (1 # 2)%Q.

(** A concrete class that defines nothing beyond what [StandardHMM] asks
    of it. *)
Definition toy_class : HMMClass Q :=
  StandardHMM.class_of toy_emission toy_log_prior None.

(** The same class with a [_conditional_logliks] method added. *)
Definition toy_class_with_logliks : HMMClass Q :=
  StandardHMM.class_of toy_emission toy_log_prior
    (Some (fun self e => BaseHMM._compute_conditional_logliks toy_class self e)).

(** A class whose transitions depend on a covariate [u]: every row is the
    first slice of [u]. *)
Definition toy_covariate_class : HMMClass Q :=
  mkHMMClass StandardHMM.initial_distribution
    (fun self state cov =>
       match cov with
       | [] => StandardHMM.transition_distribution self state []
       | (_, u) :: _ => Ok (mkCategorical u)
       end)
    toy_emission toy_log_prior None.

Definition toy_initial_probs : Array Q := vec [1 # 2; 1 # 2]%Q.

Definition toy_transition_matrix : Array Q :=
  mat 2 2 [9 # 10; 1 # 10; 1 # 10; 9 # 10]%Q.

Definition toy_model : Model Q :=
  match StandardHMM.__init__ toy_initial_probs toy_transition_matrix
                             (11 # 10)%Q (11 # 10)%Q with
  | Ok self => self
  | Err _ => []
  end.

(** Two sequences of three scalar observations. *)
Definition toy_batch : Array Q :=
  mkArray [2; 3; 1] [1; 2; 3; 4; 5; 6]%Q.

(** Batched posterior statistics for two sequences of a two-state model. *)
Definition toy_posteriors : Posterior Q :=
  mkPosterior
    (vec [-1; -2]%Q)
    (mkArray [2; 3; 2] [1; 0; 1; 0; 0; 1; 0; 1; 0; 1; 1; 0]%Q)
    (mkArray [2; 3; 2] [1; 0; 1; 0; 0; 1; 0; 1; 0; 1; 1; 0]%Q)
    (mat 2 2 [1; 0; 0; 1]%Q)
    (mkArray [2; 2; 2] [1; 1; 0; 0; 0; 1; 1; 0]%Q).

Definition toy_abstract_class : HMMClass Q :=
  StandardHMM.abstract_class toy_log_prior.

(** A second model that differs from [toy_model] in its non-frozen values. *)
Definition toy_model_other : Model Q :=
  match StandardHMM.__init__ (vec [1 # 4; 3 # 4]%Q)
                             (mat 2 2 [1 # 2; 1 # 2; 1 # 2; 1 # 2]%Q)
                             (11 # 10)%Q (11 # 10)%Q with
  | Ok self => self
  | Err _ => []
  end.


(** What [toy_emission] assigns to an observation. *)
Definition toy_log_prob (state : nat) (e : Array Q) : Q :=
  Qred (inject_Z (Z.of_nat (S state)) * np_sum e)%Q.
End Concrete.

(** * Properties *)

(** ** Chunks of lists *)

Section ChunkLemmas.
Context {A : Type}.

Lemma chunk_0 (sz : nat) (x : list A) (l : list A) :
  length x = sz -> chunk sz 0 (x ++ l) = x.
Proof.
  intros <-. unfold chunk. simpl.
  rewrite firstn_app, Nat.sub_diag, firstn_all. simpl. apply app_nil_r.
Qed.

Lemma chunk_S (sz i : nat) (x : list A) (l : list A) :
  length x = sz -> chunk sz (S i) (x ++ l) = chunk sz i l.
Proof.
  intros <-. unfold chunk. f_equal.
  replace (S i * length x) with (i * length x + length x) by lia.
  rewrite <- skipn_skipn.
  rewrite skipn_app, Nat.sub_diag, skipn_all. reflexivity.
Qed.

Lemma chunk_concat (sz : nat) (ls : list (list A)) :
  Forall (fun r => length r = sz) ls ->
  forall i, i < length ls -> chunk sz i (concat ls) = nth i ls [].
Proof.
  induction 1 as [|r ls Hr Hls IH]; intros i Hi; simpl in *.
  - lia.
  - destruct i as [|i].
    + now apply chunk_0.
    + rewrite chunk_S by assumption. apply IH. lia.
Qed.

Lemma length_concat_uniform (sz : nat) (ls : list (list A)) :
  Forall (fun r => length r = sz) ls ->
  length (concat ls) = length ls * sz.
Proof.
  induction 1 as [|r ls Hr Hls IH]; simpl; [reflexivity|].
  rewrite length_app, IH, Hr. reflexivity.
Qed.

Lemma rows_concat (sz : nat) (ls : list (list A)) :
  0 < sz ->
  Forall (fun r => length r = sz) ls ->
  rows sz (concat ls) = ls.
Proof.
  intros Hsz Hall. unfold rows.
  rewrite (length_concat_uniform Hall), Nat.div_mul by lia.
  apply nth_ext with (d := []) (d' := []).
  - now rewrite length_map, length_seq.
  - intros i Hi. rewrite length_map, length_seq in Hi.
    rewrite nth_indep with (d' := chunk sz 0 (concat ls))
      by now rewrite length_map, length_seq.
    change (chunk sz 0 (concat ls))
      with ((fun j => chunk sz j (concat ls)) 0).
    rewrite map_nth, seq_nth by assumption. simpl.
    now apply chunk_concat.
Qed.

Lemma length_chunk_le (sz i : nat) (l : list A) :
  (S i) * sz <= length l -> length (chunk sz i l) = sz.
Proof.
  intros H. unfold chunk. rewrite length_firstn, length_skipn. lia.
Qed.

Lemma rows_uniform (k : nat) (l : list A) :
  Forall (fun r => length r = k) (rows k l).
Proof.
  unfold rows. apply Forall_forall. intros r Hr.
  apply in_map_iff in Hr. destruct Hr as [i [<- Hi]].
  apply in_seq in Hi. destruct Hi as [_ Hi]. simpl in Hi.
  destruct k as [|k].
  - simpl in Hi. lia.
  - apply length_chunk_le.
    pose proof (Nat.Div0.mul_div_le (length l) (S k)) as Hd.
    nia.
Qed.
End ChunkLemmas.

(** ** Results *)

Lemma mapM_ok {A B} (f : A -> result B) (g : A -> B) (xs : list A) :
  (forall x, In x xs -> f x = Ok (g x)) ->
  mapM f xs = Ok (map g xs).
Proof.
  induction xs as [|x xs IH]; intros Hf; simpl; [reflexivity|].
  rewrite (Hf x) by (left; reflexivity). simpl.
  rewrite IH by (intros y Hy; apply Hf; right; exact Hy).
  reflexivity.
Qed.

Lemma shape_eqb_eq (s t : list nat) : shape_eqb s t = true <-> s = t.
Proof.
  revert t. induction s as [|x s IH]; intros [|y t]; simpl; split;
    try congruence; try reflexivity.
  - intros H. apply andb_true_iff in H. destruct H as [Hx Hs].
    apply Nat.eqb_eq in Hx. apply IH in Hs. congruence.
  - intros H. injection H as -> ->. rewrite Nat.eqb_refl. simpl. now apply IH.
Qed.

(** ** Basic inference *)

Section InferenceFacts.
Context {F : Type} {SF : Scalar F} {INF : Inference F}.
Variable cls : HMMClass F.

(** C10.  For every emissions sequence and every state of the parameters,
    [marginal_log_prob(emissions)] is the [marginal_loglik] field of
    [filter(emissions)]: both pass the same initial probabilities,
    transition matrices and conditional log-likelihoods to [hmm_filter],
    and both fail with the same exception when a statistic cannot be
    computed. *)
Theorem marginal_log_prob_filter (self : Model F) (emissions : Array F) :
  BaseHMM.marginal_log_prob cls self emissions
  = rmap marginal_loglik (BaseHMM.filter cls self emissions).
Proof.
  unfold BaseHMM.marginal_log_prob, BaseHMM.filter, rmap.
  destruct (BaseHMM._compute_initial_probs cls self) as [ip|e]; simpl;
    [|reflexivity].
  destruct (BaseHMM._compute_transition_matrices cls self []) as [tm|e]; simpl;
    [|reflexivity].
  destruct (BaseHMM._compute_conditional_logliks cls self emissions) as [ll|e];
    reflexivity.
Qed.
End InferenceFacts.

(** ** Construction of a StandardHMM *)

Section Construction.
Context {F : Type} {SF : Scalar F}.

Lemma last_dim_last (s : list nat) :
  StandardHMM.last_dim s
  = match s with [] => Err IndexError | _ :: _ => Ok (last s 0) end.
Proof.
  unfold StandardHMM.last_dim. destruct s as [|x s]; [reflexivity|].
  assert (Hne : x :: s <> []) by discriminate.
  rewrite (app_removelast_last 0 Hne) at 1.
  rewrite rev_app_distr. reflexivity.
Qed.

(** C9.  With [K] the last dimension of the transition matrix, the
    constructor returns a model exactly when the initial probabilities
    have shape (K,) and the transition matrix has shape (K, K), and that
    model holds the four parameters; with any other shapes it raises,
    at construction, and no model is produced. *)
Theorem init_checks_shapes (initial_probabilities transition_matrix : Array F)
    (c_init c_trans : F) :
  let k := last (shape transition_matrix) 0 in
  (shape initial_probabilities = [k] /\ shape transition_matrix = [k; k] /\
   StandardHMM.__init__ initial_probabilities transition_matrix c_init c_trans
   = Ok [ ("_initial_probs",
           mkParameter initial_probabilities (Invert SoftmaxCentered) false);
          ("_transition_matrix",
           mkParameter transition_matrix (Invert SoftmaxCentered) false);
          ("_initial_probs_concentration",
           mkParameter (scale_by c_init (ones k)) (Invert Softplus) true);
          ("_transition_matrix_concentration",
           mkParameter (scale_by c_trans (ones k)) (Invert Softplus) true) ])
  \/
  (~ (shape initial_probabilities = [k] /\ shape transition_matrix = [k; k]) /\
   exists e,
     StandardHMM.__init__ initial_probabilities transition_matrix c_init c_trans
     = Err e /\ (e = IndexError \/ e = AssertionError)).
Proof.
  intros k. unfold StandardHMM.__init__.
  rewrite last_dim_last. fold k.
  destruct (shape transition_matrix) as [|d ds] eqn:Hs.
  - right. split.
    + intros [_ H]. discriminate.
    + exists IndexError. split; [reflexivity | left; reflexivity].
  - cbn [rbind].
    destruct (shape_eqb (shape initial_probabilities) [k]) eqn:Hip;
      cbn [rbind StandardHMM.py_assert].
    + apply shape_eqb_eq in Hip.
      destruct (shape_eqb (d :: ds) [k; k]) eqn:Htm;
        cbn [rbind StandardHMM.py_assert].
      * apply shape_eqb_eq in Htm. left. repeat split; assumption.
      * right. split.
        -- intros [_ H]. apply shape_eqb_eq in H. congruence.
        -- exists AssertionError. split; [reflexivity | right; reflexivity].
    + right. split.
      * intros [H _]. apply shape_eqb_eq in H. congruence.
      * exists AssertionError. split; [reflexivity | right; reflexivity].
Qed.
End Construction.

(** ** The emission M-step objective of StandardHMM *)

Section EmissionObjective.
Context {F : Type} {SF : Scalar F} {INF : Inference F}
        {TR : Transforms F} {OPT : Optim F}.
Variable cls : HMMClass F.

Lemma single_expected_log_like_eq (self : Model F) (emissions : Array F)
    (posterior : Posterior F) :
  StandardHMM._single_expected_log_like cls self emissions posterior
  = match StandardHMM.call_method "_conditional_logliks"
            (_conditional_logliks cls) self emissions with
    | Ok _ => Err (UnboundLocalError "lp")
    | Err e => Err e
    end.
Proof.
  unfold StandardHMM._single_expected_log_like.
  destruct (StandardHMM.call_method _ _ self emissions); reflexivity.
Qed.

Lemma single_expected_log_like_fails (self : Model F) (emissions : Array F)
    (posterior : Posterior F) :
  exists e, StandardHMM._single_expected_log_like cls self emissions posterior = Err e.
Proof.
  rewrite single_expected_log_like_eq.
  destruct (StandardHMM.call_method _ _ self emissions) as [ll|e]; eauto.
Qed.

Lemma vmap2_fails (f : Array F -> Posterior F -> result F)
    (emissions : Array F) (posteriors : Posterior F) (n : nat) :
  (forall e p, exists err, f e p = Err err) ->
  len emissions = Ok (S n) ->
  exists err, BaseHMM.vmap2 f emissions posteriors = Err err.
Proof.
  intros Hf Hlen. unfold BaseHMM.vmap2, len in *.
  destruct (shape emissions) as [|m s]; [discriminate|].
  injection Hlen as ->. cbn [rbind].
  match goal with |- context [if ?c then _ else _] => destruct c end;
    [|eauto].
  cbn [seq]. destruct (Hf (slice0 0 emissions) (slice_posterior 0 posteriors))
    as [err Herr].
  exists err. cbn [mapM]. rewrite Herr. reflexivity.
Qed.

(** The per-sequence helper never returns a
    value: once the call [self._conditional_logliks(emissions)] on its
    first line has returned, [lp += ...] loads the local [lp] before it
    was ever assigned and raises the unbound-local error; when that call
    itself raises, the helper raises the same exception.  Consequently
    the emission M-step objective produces no loss value on any input. *)
Theorem emission_objective_never_returns
    (self : Model F) (emissions : Array F) (posterior : Posterior F)
    (batch_emissions : Array F) (params : Params F)
    (minibatch : Array F * Posterior F) :
  StandardHMM._single_expected_log_like cls self emissions posterior
  = match StandardHMM.call_method "_conditional_logliks"
            (_conditional_logliks cls) self emissions with
    | Ok _ => Err (UnboundLocalError "lp")
    | Err e => Err e
    end
  /\ forall v,
      fst (StandardHMM.neg_expected_log_joint cls batch_emissions params
                                              minibatch self) <> Ok v.
Proof.
  split; [apply single_expected_log_like_eq|].
  intros v. destruct minibatch as [mb_emissions mb_posteriors].
  unfold StandardHMM.neg_expected_log_joint, bind, call,
    assign_unconstrained_params, ret.
  destruct (len batch_emissions) as [n|e]; cbn [rbind fst]; [|discriminate].
  destruct (len mb_emissions) as [k|e] eqn:Hk; cbn [rbind fst]; [|discriminate].
  unfold py_div. destruct k as [|k]; cbn [Nat.eqb fst]; [discriminate|].
  destruct (log_prior cls _) as [lp0|e]; cbn [fst]; [|discriminate].
  destruct (@vmap2_fails
              (StandardHMM._single_expected_log_like
                 cls (set_unconstrained_params params self))
              mb_emissions mb_posteriors k
              (single_expected_log_like_fails _) Hk)
    as [err Herr].
  rewrite Herr. cbn [fst]. discriminate.
Qed.
End EmissionObjective.

(** C3.  The helper calls [self._conditional_logliks], a name that
    neither [BaseHMM] nor [StandardHMM] defines: the method of [BaseHMM]
    is [_compute_conditional_logliks].  At a class that adds no method of
    the misspelt name, on a two-state model with a batch of two sequences,
    the method under its real name returns the log-likelihoods, yet the
    helper and the objective stop at the attribute lookup, one line before
    [lp += ...]: the exception is an attribute error and not the
    unbound-local error. *)
Lemma emission_objective_attribute_error :
  is_ok (BaseHMM._compute_conditional_logliks
           Concrete.toy_class Concrete.toy_model (slice0 0 Concrete.toy_batch))
  = true
  /\ StandardHMM._single_expected_log_like
       Concrete.toy_class Concrete.toy_model
       (slice0 0 Concrete.toy_batch) (slice_posterior 0 Concrete.toy_posteriors)
     = Err (AttributeError "_conditional_logliks")
  /\ StandardHMM._single_expected_log_like
       Concrete.toy_class Concrete.toy_model
       (slice0 0 Concrete.toy_batch) (slice_posterior 0 Concrete.toy_posteriors)
     <> Err (UnboundLocalError "lp")
  /\ fst (StandardHMM.neg_expected_log_joint
            Concrete.toy_class Concrete.toy_batch
            (get_unconstrained_params Concrete.toy_model)
            (Concrete.toy_batch, Concrete.toy_posteriors) Concrete.toy_model)
     = Err (AttributeError "_conditional_logliks").
Proof.
  split; [vm_compute; reflexivity|].
  split; [reflexivity|]. split; [discriminate|]. vm_compute. reflexivity.
Qed.

(** With the method present the helper reaches [lp += ...]. *)
Example emission_objective_unbound_local :
  StandardHMM._single_expected_log_like
    Concrete.toy_class_with_logliks Concrete.toy_model
    (slice0 0 Concrete.toy_batch) (slice_posterior 0 Concrete.toy_posteriors)
  = Err (UnboundLocalError "lp").
Proof. vm_compute. reflexivity. Qed.

(** ** Stacking and slicing *)

Section StackFacts.
Context {F : Type}.


Lemma uniform_data (s : list nat) (xs : list (Array F)) :
  uniform s xs -> Forall (fun r => length r = numel s) (map data xs).
Proof.
  induction 1 as [|x xs [_ Hx] _ IH]; simpl; constructor; assumption.
Qed.

Lemma shape_stack (s : list nat) (xs : list (Array F)) :
  uniform s xs -> xs <> [] -> shape (stack xs) = length xs :: s.
Proof.
  intros Hu Hne. destruct xs as [|x xs]; [congruence|].
  inversion Hu as [|? ? [Hx _] _]; subst. reflexivity.
Qed.

Lemma length_data_stack (s : list nat) (xs : list (Array F)) :
  uniform s xs -> length (data (stack xs)) = length xs * numel s.
Proof.
  intros Hu. simpl. rewrite (length_concat_uniform (uniform_data Hu)).
  now rewrite length_map.
Qed.

Lemma slice0_stack (s : list nat) (xs : list (Array F)) (i : nat) (x : Array F) :
  uniform s xs -> nth_error xs i = Some x -> slice0 i (stack xs) = x.
Proof.
  intros Hu Hi.
  assert (Hlt : i < length xs) by (apply nth_error_Some; congruence).
  assert (Hne : xs <> []) by (destruct xs; simpl in *; [lia | discriminate]).
  unfold slice0. rewrite (shape_stack Hu Hne). cbn [tl].
  cbn [stack data].
  rewrite (chunk_concat (uniform_data Hu)) by now rewrite length_map.
  assert (Hx : shape x = s /\ length (data x) = numel s).
  { apply nth_error_In in Hi. unfold uniform in Hu.
    rewrite Forall_forall in Hu. now apply Hu. }
  rewrite nth_indep with (d' := data x) by now rewrite length_map.
  rewrite map_nth. rewrite (nth_error_nth _ _ _ Hi).
  destruct x as [sx dx]. simpl in Hx. destruct Hx as [-> _]. reflexivity.
Qed.

Lemma index_stack (s : list nat) (xs : list (Array F)) (i : nat) (x : Array F) :
  uniform s xs -> nth_error xs i = Some x -> index (stack xs) i = Ok x.
Proof.
  intros Hu Hi. unfold index. cbn [stack shape].
  assert (Hlt : i < length xs) by (apply nth_error_Some; congruence).
  apply Nat.ltb_lt in Hlt. rewrite Hlt.
  now rewrite (@slice0_stack s xs i x Hu Hi).
Qed.

Lemma nth_error_map_seq {B} (g : nat -> B) (n i : nat) :
  i < n -> nth_error (map g (seq 0 n)) i = Some (g i).
Proof.
  intros Hi. rewrite nth_error_map.
  rewrite (nth_error_nth' (seq 0 n) 0) by now rewrite length_seq.
  rewrite seq_nth by assumption. reflexivity.
Qed.
End StackFacts.

(** ** Statistic extractors and the E-step *)

Section Extractors.
Context {F : Type} {SF : Scalar F} {INF : Inference F}.
Variable cls : HMMClass F.

Lemma transition_rows_ok (self : Model F) (k : nat) (cov : Kwargs F)
    (row : nat -> Array F) :
  BaseHMM.num_states cls self = Ok k ->
  (forall i, i < k ->
     transition_distribution cls self i cov = Ok (mkCategorical (row i))) ->
  BaseHMM.transition_rows cls self cov = Ok (stack (map row (seq 0 k))).
Proof.
  intros Hk Hrow. unfold BaseHMM.transition_rows. rewrite Hk. cbn [rbind].
  rewrite mapM_ok with (g := row); [reflexivity|].
  intros i Hi. apply in_seq in Hi. rewrite Hrow by lia. reflexivity.
Qed.

Lemma uniform_rows (k : nat) (row : nat -> Array F) :
  (forall i, i < k -> shape (row i) = [k] /\ length (data (row i)) = k) ->
  uniform [k] (map row (seq 0 k)).
Proof.
  intros Hrow. apply Forall_forall. intros x Hx.
  apply in_map_iff in Hx. destruct Hx as [i [<- Hi]].
  apply in_seq in Hi. destruct (Hrow i) as [Hs Hd]; [lia|].
  split; [exact Hs|]. simpl. lia.
Qed.

(** The matrix built from [k] rows of length [k]. *)
Lemma stacked_rows_matrix (k : nat) (row : nat -> Array F) :
  0 < k ->
  (forall i, i < k -> shape (row i) = [k] /\ length (data (row i)) = k) ->
  let m := stack (map row (seq 0 k)) in
  shape m = [k; k] /\ length (data m) = numel [k; k] /\
  forall i, i < k -> index m i = Ok (row i).
Proof.
  intros Hk Hrow m. pose proof (uniform_rows row Hrow) as Hu.
  assert (Hlen : length (map row (seq 0 k)) = k)
    by now rewrite length_map, length_seq.
  split; [|split].
  - unfold m. rewrite (shape_stack Hu), Hlen; [reflexivity|].
    destruct k; [lia | discriminate].
  - unfold m. rewrite (length_data_stack Hu), Hlen. reflexivity.
  - intros i Hi. apply index_stack with (s := [k]); [exact Hu|].
    now apply nth_error_map_seq.
Qed.

Lemma kwargs_slices_ok (covariates : Kwargs F) (b : nat) :
  covariates <> [] ->
  Forall (fun nc => hd_error (shape (snd nc)) = Some b) covariates ->
  BaseHMM.kwargs_slices covariates
  = Ok (map (fun i => map (fun nc => (fst nc, slice0 i (snd nc))) covariates)
            (seq 0 b)).
Proof.
  intros Hne Hall. unfold BaseHMM.kwargs_slices.
  destruct covariates as [|[n a] rest]; [congruence|].
  pose proof (Forall_inv Hall) as Ha. simpl in Ha.
  destruct (shape a) as [|m s] eqn:Hs; [discriminate|].
  injection Ha as ->. cbn [rbind].
  replace (forallb _ ((n, a) :: rest)) with true; [reflexivity|].
  symmetry. apply forallb_forall. intros nc Hnc.
  rewrite Forall_forall in Hall. specialize (Hall nc Hnc).
  destruct (shape (snd nc)); [discriminate|].
  injection Hall as ->. apply Nat.eqb_refl.
Qed.

(** C5.  Let the model have [k] states and let every transition
    distribution carry a probability vector of length [k].  Without
    covariates [_compute_transition_matrices] returns a [k] by [k] matrix
    whose row [i] is the probability vector of
    [transition_distribution(i)].  With covariates of leading size [b],
    at least one realization, it returns a tensor of leading size [b]
    whose slice for each covariate realization is such a matrix, built
    from the transition distributions at that realization. *)
Theorem compute_transition_matrices_rows
    (self : Model F) (k : nat) (probs : Kwargs F -> nat -> Array F)
    (covariates : Kwargs F) (b : nat) :
  BaseHMM.num_states cls self = Ok k ->
  0 < k ->
  (forall cov i, i < k ->
     shape (probs cov i) = [k] /\ length (data (probs cov i)) = k) ->
  ((forall i, i < k ->
      transition_distribution cls self i [] = Ok (mkCategorical (probs [] i))) ->
   exists m,
     BaseHMM._compute_transition_matrices cls self [] = Ok m /\
     shape m = [k; k] /\
     forall i, i < k -> index m i = Ok (probs [] i))
  /\
  (covariates <> [] ->
   0 < b ->
   Forall (fun nc => hd_error (shape (snd nc)) = Some b) covariates ->
   (forall j i, j < b -> i < k ->
      let cov := map (fun nc => (fst nc, slice0 j (snd nc))) covariates in
      transition_distribution cls self i cov = Ok (mkCategorical (probs cov i))) ->
   exists t,
     BaseHMM._compute_transition_matrices cls self covariates = Ok t /\
     hd_error (shape t) = Some b /\
     forall j, j < b ->
       let cov := map (fun nc => (fst nc, slice0 j (snd nc))) covariates in
       exists m,
         index t j = Ok m /\ shape m = [k; k] /\
         forall i, i < k -> index m i = Ok (probs cov i)).
Proof.
  intros Hk Hpos Hshape. split.
  - intros Hrow. unfold BaseHMM._compute_transition_matrices. cbn [length Nat.ltb Nat.leb].
    rewrite (transition_rows_ok self [] (probs []) Hk Hrow).
    destruct (stacked_rows_matrix (probs []) Hpos (Hshape [])) as [Hs [_ Hi]].
    eexists. split; [reflexivity|]. split; assumption.
  - intros Hne _ Hall Hrow.
    set (slice := fun j => map (fun nc : string * Array F =>
                                  (fst nc, slice0 j (snd nc))) covariates) in *.
    set (mat := fun cov => stack (map (probs cov) (seq 0 k))).
    unfold BaseHMM._compute_transition_matrices.
    replace (0 <? length covariates) with true
      by (destruct covariates; [congruence | reflexivity]).
    rewrite (kwargs_slices_ok Hne Hall). cbn [rbind]. fold slice.
    rewrite mapM_ok with (g := mat).
    2:{ intros cov Hcov. apply in_map_iff in Hcov.
        destruct Hcov as [j [<- Hj]]. apply in_seq in Hj.
        apply (transition_rows_ok self (slice j) (probs (slice j)) Hk).
        intros i Hi. apply Hrow; lia. }
    cbn [rbind]. eexists. split; [reflexivity|]. split.
    + cbn [stack shape hd_error]. now rewrite !length_map, length_seq.
    + intros j Hj. exists (mat (slice j)).
      destruct (stacked_rows_matrix (probs (slice j)) Hpos (Hshape (slice j)))
        as [Hs [Hd Hi]].
      split; [|split; assumption].
      apply index_stack with (s := [k; k]).
      * apply Forall_forall. intros x Hx.
        apply in_map_iff in Hx. destruct Hx as [cov [<- _]].
        destruct (stacked_rows_matrix (probs cov) Hpos (Hshape cov))
          as [Hs' [Hd' _]].
        split; assumption.
      * rewrite map_map. now apply (nth_error_map_seq (fun j => mat (slice j))).
Qed.

(** C4.  For a batch of at least one sequence, each of at least one time
    step, and a model of at least one state: when the statistics of the
    model can be computed, [e_step]
    returns the stacked posteriors of the sequences of the batch, and for
    every sequence the stored [trans_probs] is what
    [compute_transition_probs] returns with [reduce_sum] set exactly when
    the transition-matrix statistic has rank 2: summed over time for a
    rank-2 statistic, the per-time-step tensor ([reduce_sum=False]) for a
    statistic of higher rank. *)
Theorem e_step_reduce_or_retain
    (self : Model F) (batch_emissions : Array F) (sequences : list (Array F))
    (tm ip : Array F) (n t k : nat) (s : list nat) :
  shape batch_emissions = n :: t :: s ->
  0 < n ->
  0 < t ->
  BaseHMM.num_states cls self = Ok k ->
  0 < k ->
  unstack batch_emissions = Ok sequences ->
  BaseHMM._compute_transition_matrices cls self [] = Ok tm ->
  BaseHMM._compute_initial_probs cls self = Ok ip ->
  forallb (fun em => is_ok (BaseHMM._compute_conditional_logliks cls self em))
          sequences = true ->
  exists posteriors,
    BaseHMM.e_step cls self batch_emissions = Ok (stack_posteriors posteriors) /\
    Forall2
      (fun em post =>
         exists ll,
           BaseHMM._compute_conditional_logliks cls self em = Ok ll /\
           let smoothed := hmm_two_filter_smoother ip tm ll in
           post = set_trans_probs
                    (compute_transition_probs tm smoothed (ndim tm =? 2))
                    smoothed /\
           (ndim tm = 2 ->
            trans_probs post = compute_transition_probs tm smoothed true) /\
           (2 < ndim tm ->
            trans_probs post = compute_transition_probs tm smoothed false))
      sequences posteriors.
Proof.
  intros _ _ _ _ _ Hu Htm Hip Hll. unfold BaseHMM.e_step. rewrite Hu. cbn [rbind].
  clear Hu.
  assert (Hmap : exists posteriors,
             mapM (BaseHMM._single_e_step cls self) sequences = Ok posteriors /\
             Forall2
               (fun em post =>
                  exists ll,
                    BaseHMM._compute_conditional_logliks cls self em = Ok ll /\
                    let smoothed := hmm_two_filter_smoother ip tm ll in
                    post = set_trans_probs
                             (compute_transition_probs tm smoothed (ndim tm =? 2))
                             smoothed /\
                    (ndim tm = 2 ->
                     trans_probs post = compute_transition_probs tm smoothed true) /\
                    (2 < ndim tm ->
                     trans_probs post = compute_transition_probs tm smoothed false))
               sequences posteriors).
  { induction sequences as [|em rest IH].
    - exists []. split; [reflexivity | constructor].
    - cbn [forallb] in Hll. apply andb_true_iff in Hll.
      destruct Hll as [Hem Hrest].
      destruct (IH Hrest) as [posts [Hposts Hall]].
      destruct (BaseHMM._compute_conditional_logliks cls self em) as [ll|e] eqn:Hl;
        [|discriminate].
      eexists. split.
      + cbn [mapM]. unfold BaseHMM._single_e_step at 1.
        rewrite Htm, Hip, Hl. cbn [rbind]. rewrite Hposts. reflexivity.
      + constructor; [|exact Hall].
        exists ll. split; [exact Hl|]. split; [reflexivity|]. split.
        * intros H2. apply Nat.eqb_eq in H2. rewrite H2. reflexivity.
        * intros H2.
          assert (Hne : (ndim tm =? 2) = false) by (apply Nat.eqb_neq; lia).
          rewrite Hne. reflexivity. }
  destruct Hmap as [posteriors [Hm Hall]].
  exists posteriors. rewrite Hm. split; [reflexivity | exact Hall].
Qed.
End Extractors.

(** ** Attributes of the model object *)

Unset Implicit Arguments.

Section Attributes.
Context {F : Type} {SF : Scalar F} {TR : Transforms F}.

Lemma assign_value_ok (name : string) (v : Array F) (self : Model F)
    (p : ModelParameter F) :
  getattr name self = Ok p ->
  in_domain (bijector p) v = true ->
  exists self',
    assign_value name v self = Ok self' /\
    getattr name self' = Ok (mkParameter v (bijector p) (is_frozen p)) /\
    forall other, other <> name -> getattr other self' = getattr other self.
Proof.
  induction self as [|[n q] r IH]; intros Hget Hdom; simpl in *; [discriminate|].
  destruct (String.eqb n name) eqn:Hn.
  - injection Hget as ->. rewrite Hdom. eexists. split; [reflexivity|].
    simpl. rewrite Hn. split; [reflexivity|].
    intros other Hother. apply String.eqb_eq in Hn. subst n.
    destruct (String.eqb name other) eqn:Ho; [|reflexivity].
    apply String.eqb_eq in Ho. congruence.
  - destruct (IH Hget Hdom) as [r' [Hr' [Hsame Hother]]].
    rewrite Hr'. eexists. split; [reflexivity|].
    simpl. rewrite Hn. split; [exact Hsame|].
    intros other Ho. destruct (String.eqb n other); [reflexivity|].
    now apply Hother.
Qed.

(** Whatever [assign_value] does, it leaves the other attributes alone. *)
Lemma assign_value_frame (name : string) (v : Array F) (self self' : Model F) :
  assign_value name v self = Ok self' ->
  forall other, other <> name -> getattr other self' = getattr other self.
Proof.
  revert self'. induction self as [|[n q] r IH]; intros self' Ha other Ho;
    simpl in *; [discriminate|].
  destruct (String.eqb n name) eqn:Hn.
  - apply String.eqb_eq in Hn. subst n.
    destruct (in_domain (bijector q) v); [|discriminate].
    injection Ha as <-. simpl.
    destruct (String.eqb name other) eqn:Hno; [|reflexivity].
    apply String.eqb_eq in Hno. congruence.
  - destruct (assign_value name v r) as [r'|e] eqn:Hr; simpl in Ha; [|discriminate].
    injection Ha as <-. simpl.
    destruct (String.eqb n other); [reflexivity|]. now apply (IH r').
Qed.
End Attributes.

(** ** The closed-form M-step of StandardHMM *)

Section ClosedForm.
Context {F : Type} {SF : Scalar F} {INF : Inference F}
        {TR : Transforms F} {OPT : Optim F}.

Lemma well_shaped_spec (s : list nat) (a : Array F) :
  well_shaped s a = true -> shape a = s /\ length (data a) = numel s.
Proof.
  unfold well_shaped. intros H. apply andb_true_iff in H. destruct H as [Hs Hd].
  apply shape_eqb_eq in Hs. apply Nat.eqb_eq in Hd. split; assumption.
Qed.

Lemma rows_single {A} (k : nat) (l : list A) :
  0 < k -> length l = k -> rows k l = [l].
Proof.
  intros Hk Hl.
  rewrite <- (app_nil_r l) at 1.
  change (l ++ []) with (concat [l]).
  apply rows_concat; [assumption|]. constructor; [assumption | constructor].
Qed.

Lemma length_zipWith {A B C} (f : A -> B -> C) (xs : list A) (ys : list B) :
  length (zipWith f xs ys) = Nat.min (length xs) (length ys).
Proof.
  revert ys. induction xs as [|x xs IH]; intros [|y ys]; simpl; auto.
Qed.

Lemma suffixb_refl (s : list nat) : suffixb s s = true.
Proof.
  unfold suffixb. rewrite Nat.leb_refl, Nat.sub_diag. simpl.
  now apply shape_eqb_eq.
Qed.

(** [c + n] for two vectors of length [k]. *)
Lemma np_add_vector (k : nat) (c n : Array F) :
  0 < k -> well_shaped [k] c = true -> well_shaped [k] n = true ->
  np_add c n = Ok (mkArray [k] (zipWith fadd (data c) (data n))).
Proof.
  intros Hk Hc Hn.
  apply well_shaped_spec in Hc. apply well_shaped_spec in Hn.
  destruct Hc as [Hcs Hcd]. destruct Hn as [Hns Hnd].
  simpl in Hcd, Hnd. rewrite Nat.mul_1_r in Hcd, Hnd.
  unfold np_add, broadcast2, size. rewrite Hcs, Hns, suffixb_refl.
  simpl numel. rewrite Nat.mul_1_r, (rows_single k (data n) Hk Hnd).
  simpl. now rewrite app_nil_r.
Qed.

(** [c + n] for a vector of length [k] and a [k] by [k] matrix: the
    vector is added to every row. *)
Lemma np_add_rows (k : nat) (c n : Array F) :
  well_shaped [k] c = true -> shape n = [k; k] ->
  np_add c n
  = Ok (mkArray [k; k] (concat (map (zipWith fadd (data c)) (rows k (data n))))).
Proof.
  intros Hc Hns. apply well_shaped_spec in Hc. destruct Hc as [Hcs _].
  unfold np_add, broadcast2, size. rewrite Hcs, Hns.
  assert (Hsuf : suffixb [k] [k; k] = true).
  { unfold suffixb. simpl. now rewrite Nat.eqb_refl. }
  rewrite Hsuf. simpl numel. now rewrite Nat.mul_1_r.
Qed.

Lemma Dirichlet_mode_vector (k : nat) (alpha : list F) :
  0 < k -> length alpha = k ->
  Dirichlet_mode (mkDirichlet (mkArray [k] alpha))
  = mkArray [k] (Dirichlet_mode_row alpha).
Proof.
  intros Hk Hl. unfold Dirichlet_mode. simpl.
  rewrite (rows_single k alpha Hk Hl). simpl. now rewrite app_nil_r.
Qed.

Lemma Dirichlet_mode_rows (k : nat) (c : list F) (d : list F) :
  0 < k -> length c = k ->
  Dirichlet_mode
    (mkDirichlet (mkArray [k; k] (concat (map (zipWith fadd c) (rows k d)))))
  = mkArray [k; k] (concat (map (dirichlet_posterior_mode c) (rows k d))).
Proof.
  intros Hk Hc. unfold Dirichlet_mode. cbn [concentration shape data last].
  rewrite rows_concat, map_map; [reflexivity | assumption |].
  apply Forall_forall. intros r Hr. apply in_map_iff in Hr.
  destruct Hr as [r0 [<- Hr0]].
  pose proof (rows_uniform k d) as Hu. rewrite Forall_forall in Hu.
  rewrite length_zipWith, Hc, (Hu r0 Hr0). apply Nat.min_id.
Qed.

Lemma length_mode_row (alpha : list F) :
  length (Dirichlet_mode_row alpha) = length alpha.
Proof.
  unfold Dirichlet_mode_row, mode_row.
  destruct (mode_defined alpha); apply length_map.
Qed.

Lemma map_const_length {A B C} (c : C) (l : list A) (l' : list B) :
  length l = length l' -> map (fun _ => c) l = map (fun _ => c) l'.
Proof.
  revert l'. induction l as [|x l IH]; intros [|y l'] H; simpl in *;
    try discriminate; [reflexivity|].
  f_equal. apply IH. now injection H.
Qed.

Lemma mode_row_defined (alpha : list F) :
  mode_defined alpha = true -> Dirichlet_mode_row alpha = mode_row alpha.
Proof. intros H. unfold Dirichlet_mode_row. now rewrite H. Qed.

(** C1.  Let the model have [k] states, let the two stored prior
    concentrations be vectors of length [k], and let the batch statistics
    sum over the batch axis to a vector [n_init] of expected initial-state
    occupancies and a [k] by [k] matrix [n_trans] of expected transition
    counts.  When the two posterior modes are accepted by the parameters'
    setters, the closed-form sub-steps of [m_step] complete, the new
    initial-probability vector is the mode of the Dirichlet posterior
    with concentration prior + [n_init], every row of the new transition
    matrix is the mode of the Dirichlet posterior with concentration
    prior + the matching row of [n_trans], and the two stored priors are
    as they were.  The mode is the one the distribution reports: wherever
    every component of the posterior concentration exceeds one it is the
    closed form [(alpha_i - 1) / (sum alpha - k)], and a row with a
    component of at most one is stored as not-a-number. *)
Theorem closed_form_m_step_posterior_mode
    (self : Model F) (batch_emissions : Array F) (batch_posteriors : Posterior F)
    (k : nat) (p_init p_trans c_init c_trans : ModelParameter F)
    (n_init n_trans : Array F) :
  0 < k ->
  getattr "_initial_probs" self = Ok p_init ->
  getattr "_transition_matrix" self = Ok p_trans ->
  getattr "_initial_probs_concentration" self = Ok c_init ->
  getattr "_transition_matrix_concentration" self = Ok c_trans ->
  well_shaped [k] (value c_init) = true ->
  well_shaped [k] (value c_trans) = true ->
  sum_axis0 (initial_probs batch_posteriors) = Ok n_init ->
  well_shaped [k] n_init = true ->
  sum_axis0 (trans_probs batch_posteriors) = Ok n_trans ->
  well_shaped [k; k] n_trans = true ->
  in_domain (bijector p_init)
    (mkArray [k] (dirichlet_posterior_mode (data (value c_init)) (data n_init)))
  = true ->
  in_domain (bijector p_trans)
    (mkArray [k; k]
       (concat (map (dirichlet_posterior_mode (data (value c_trans)))
                    (rows k (data n_trans)))))
  = true ->
  exists self' new_init new_trans,
    (StandardHMM._m_step_initial_probs batch_emissions batch_posteriors ;;;
     StandardHMM._m_step_transition_matrix batch_emissions batch_posteriors)%py self
    = (Ok tt, self') /\
    getattr "_initial_probs" self' = Ok new_init /\
    shape (value new_init) = [k] /\
    data (value new_init)
    = dirichlet_posterior_mode (data (value c_init)) (data n_init) /\
    getattr "_transition_matrix" self' = Ok new_trans /\
    shape (value new_trans) = [k; k] /\
    rows k (data (value new_trans))
    = map (dirichlet_posterior_mode (data (value c_trans))) (rows k (data n_trans)) /\
    getattr "_initial_probs_concentration" self' = Ok c_init /\
    getattr "_transition_matrix_concentration" self' = Ok c_trans /\
    (mode_defined (zipWith fadd (data (value c_init)) (data n_init)) = true ->
     data (value new_init)
     = mode_row (zipWith fadd (data (value c_init)) (data n_init))) /\
    (forall i, i < k ->
       mode_defined (zipWith fadd (data (value c_trans))
                             (nth i (rows k (data n_trans)) [])) = true ->
       nth i (rows k (data (value new_trans))) []
       = mode_row (zipWith fadd (data (value c_trans))
                           (nth i (rows k (data n_trans)) []))) /\
    (mode_defined (zipWith fadd (data (value c_init)) (data n_init)) = false ->
     data (value new_init) = map (fun _ => fnan) (data n_init)).
Proof.
  intros Hk Hpi Hpt Hci Hct Wci Wct Hni Wni Hnt Wnt Di Dt.
  pose proof (well_shaped_spec _ _ Wci) as [_ Lci].
  pose proof (well_shaped_spec _ _ Wct) as [_ Lct].
  pose proof (well_shaped_spec _ _ Wnt) as [Snt Lnt].
  pose proof (well_shaped_spec _ _ Wni) as [_ Lni].
  simpl in Lci, Lct, Lni, Lnt. rewrite Nat.mul_1_r in Lci, Lct, Lni, Lnt.
  assert (Hrows : rows k (concat (map (dirichlet_posterior_mode (data (value c_trans)))
                                      (rows k (data n_trans))))
                  = map (dirichlet_posterior_mode (data (value c_trans)))
                        (rows k (data n_trans))).
  { apply rows_concat; [exact Hk|].
    apply Forall_forall. intros r Hr. apply in_map_iff in Hr.
    destruct Hr as [r0 [<- Hr0]].
    pose proof (rows_uniform k (data n_trans)) as Hu. rewrite Forall_forall in Hu.
    unfold dirichlet_posterior_mode.
    rewrite length_mode_row, length_zipWith, Lct, (Hu r0 Hr0). apply Nat.min_id. }
  (* the initial-probability step *)
  destruct (assign_value_ok "_initial_probs" _ self p_init Hpi Di)
    as [self1 [A1 [G1 O1]]].
  (* the transition-matrix step runs on [self1] *)
  assert (Hpt1 : getattr "_transition_matrix" self1 = Ok p_trans)
    by (rewrite O1 by discriminate; exact Hpt).
  destruct (assign_value_ok "_transition_matrix" _ self1 p_trans Hpt1 Dt)
    as [self2 [A2 [G2 O2]]].
  exists self2. eexists. eexists.
  split; [|split; [|split; [|split; [|split; [|split; [|split; [|split;
    [|split; [|split; [|split]]]]]]]]]].
  - unfold StandardHMM._m_step_initial_probs, StandardHMM._m_step_transition_matrix,
      bind, call, update.
    rewrite Hci, Hni, (np_add_vector k _ _ Hk Wci Wni).
    rewrite Dirichlet_mode_vector
      by (try assumption; rewrite length_zipWith; apply well_shaped_spec in Wni;
          destruct Wni as [_ Ln]; simpl in Ln; lia).
    fold (dirichlet_posterior_mode (data (value c_init)) (data n_init)).
    rewrite A1.
    rewrite (O1 "_transition_matrix_concentration") by discriminate.
    rewrite Hct, Hnt, (np_add_rows k _ _ Wct Snt).
    rewrite (Dirichlet_mode_rows k _ _ Hk Lct).
    rewrite A2. reflexivity.
  - rewrite O2 by discriminate. exact G1.
  - reflexivity.
  - reflexivity.
  - exact G2.
  - reflexivity.
  - cbn [value data]. exact Hrows.
  - rewrite O2, O1 by discriminate. exact Hci.
  - rewrite O2, O1 by discriminate. exact Hct.
  - intros Hd. cbn [value data]. unfold dirichlet_posterior_mode.
    now apply mode_row_defined.
  - intros i Hi Hd. cbn [value data]. rewrite Hrows.
    assert (Hlen : length (rows k (data n_trans)) = k).
    { unfold rows. rewrite length_map, length_seq, Lnt. apply Nat.div_mul. lia. }
    rewrite (nth_indep _ []
               (dirichlet_posterior_mode (data (value c_trans)) []))
      by (rewrite length_map; lia).
    rewrite map_nth. unfold dirichlet_posterior_mode.
    now apply mode_row_defined.
  - intros Hd. cbn [value data]. unfold dirichlet_posterior_mode, Dirichlet_mode_row.
    rewrite Hd. apply map_const_length. rewrite length_zipWith. lia.
Qed.
End ClosedForm.

(** ** What mutating code leaves alone *)

Section Frame.
Context {F : Type} {SF : Scalar F} {TR : Transforms F} {OPT : Optim F}.

Lemma frozen_set_unconstrained (values : Params F) (self : Model F) :
  frozen_params (set_unconstrained_params values self) = frozen_params self.
Proof.
  revert values. induction self as [|[n p] r IH]; intros values; simpl;
    [reflexivity|].
  destruct (is_frozen p) eqn:Hp; simpl; rewrite ?Hp.
  - f_equal. apply IH.
  - destruct values as [|u us]; simpl; rewrite ?Hp; [reflexivity | apply IH].
Qed.

Lemma frozen_assign_value (name : string) (v : Array F) (self self' : Model F) :
  assign_value name v self = Ok self' ->
  (forall p, getattr name self = Ok p -> is_frozen p = false) ->
  frozen_params self' = frozen_params self.
Proof.
  revert self'. induction self as [|[n q] r IH]; intros self' Ha Hnf;
    simpl in *; [discriminate|].
  destruct (String.eqb n name) eqn:Hn.
  - destruct (in_domain (bijector q) v); [|discriminate].
    injection Ha as <-. simpl. rewrite (Hnf q eq_refl). reflexivity.
  - destruct (assign_value name v r) as [r'|e] eqn:Hr; simpl in Ha; [|discriminate].
    injection Ha as <-. simpl. rewrite (IH r' eq_refl Hnf). reflexivity.
Qed.

Variable P : Model F -> Prop.

Lemma preserves_ret {A} (a : A) : preserves P (ret a).
Proof. intros self H. exact H. Qed.

Lemma preserves_call {A} (f : Model F -> result A) : preserves P (call f).
Proof. intros self H. exact H. Qed.

Lemma preserves_read : preserves P read_unconstrained_params.
Proof. intros self H. exact H. Qed.

Lemma preserves_bind {A B} (c : M F A) (k : A -> M F B) :
  preserves P c -> (forall a, preserves P (k a)) -> preserves P (bind c k).
Proof.
  intros Hc Hk self H. unfold bind. specialize (Hc self H).
  destruct (c self) as [[a|e] self']; simpl in *; [|exact Hc].
  apply Hk. exact Hc.
Qed.

Lemma preserves_foldM {A B} (f : B -> A -> M F B) (xs : list A) (b : B) :
  (forall b x, preserves P (f b x)) -> preserves P (foldM_py f xs b).
Proof.
  intros Hf. revert b. induction xs as [|x xs IH]; intros b; simpl.
  - apply preserves_ret.
  - apply preserves_bind; [apply Hf | intros b'; apply IH].
Qed.

Hypothesis P_set : forall values self, P self -> P (set_unconstrained_params values self).

Lemma preserves_assign (values : Params F) :
  preserves P (assign_unconstrained_params values).
Proof. intros self H. apply P_set. exact H. Qed.

Lemma preserves_run_sgd {D} {DS : Dataset F D}
    (loss_fn : Params F -> D -> M F F) (params : Params F) (dataset : D)
    (optimizer : Optimizer) (batch_size num_epochs : nat)
    (shuffle : bool) (key : PRNGKey) :
  (forall p d, preserves P (loss_fn p d)) ->
  preserves P (run_sgd loss_fn params dataset optimizer batch_size num_epochs
                       shuffle key).
Proof.
  intros Hloss. unfold run_sgd. apply preserves_bind.
  - apply preserves_foldM. intros st k. unfold sgd_epoch.
    apply preserves_bind; [apply preserves_call|].
    intros mbs. apply preserves_foldM. intros [[ps os] ls] mb. unfold sgd_step.
    apply preserves_bind; [apply Hloss|]. intros l.
    apply preserves_bind; [apply preserves_call|]. intros self.
    destruct (opt_update _ _ _ _). apply preserves_ret.
  - intros [[ps os] ls]. apply preserves_ret.
Qed.
End Frame.

(** ** The M-step *)

Section MStep.
Context {F : Type} {SF : Scalar F} {INF : Inference F}
        {TR : Transforms F} {OPT : Optim F}.
Variable cls : HMMClass F.

Let keeps (fp : Model F) : Model F -> Prop := fun self => frozen_params self = fp.

Lemma keeps_set (fp : Model F) (values : Params F) (self : Model F) :
  keeps fp self -> keeps fp (set_unconstrained_params values self).
Proof. unfold keeps. intros <-. apply frozen_set_unconstrained. Qed.

Lemma base_objective_keeps (fp : Model F) (batch_emissions : Array F)
    (params : Params F) (minibatch : Array F * Posterior F) :
  preserves (keeps fp) (BaseHMM.neg_expected_log_joint cls batch_emissions
                                                       params minibatch).
Proof.
  destruct minibatch as [mb_e mb_p]. unfold BaseHMM.neg_expected_log_joint.
  apply preserves_bind; [apply preserves_call|]. intros scale.
  apply preserves_bind; [apply preserves_assign, keeps_set|]. intros _.
  apply preserves_bind; [apply preserves_call|]. intros lp.
  apply preserves_bind; [apply preserves_call|]. intros lps.
  apply preserves_ret.
Qed.

Lemma standard_objective_keeps (fp : Model F) (batch_emissions : Array F)
    (params : Params F) (minibatch : Array F * Posterior F) :
  preserves (keeps fp) (StandardHMM.neg_expected_log_joint cls batch_emissions
                                                           params minibatch).
Proof.
  destruct minibatch as [mb_e mb_p]. unfold StandardHMM.neg_expected_log_joint.
  apply preserves_bind; [apply preserves_call|]. intros scale.
  apply preserves_bind; [apply preserves_assign, keeps_set|]. intros _.
  apply preserves_bind; [apply preserves_call|]. intros lp.
  apply preserves_bind; [apply preserves_call|]. intros lps.
  apply preserves_ret.
Qed.

Lemma base_m_step_keeps (fp : Model F) (bs : nat) (sh : bool) (key : PRNGKey)
    (batch_emissions : Array F) (batch_posteriors : Posterior F)
    (optimizer : Optimizer) (num_mstep_iters : nat) :
  preserves (keeps fp)
    (BaseHMM.m_step cls bs sh key batch_emissions batch_posteriors
                    optimizer num_mstep_iters).
Proof.
  unfold BaseHMM.m_step.
  apply preserves_bind; [apply preserves_read|]. intros params0.
  apply preserves_bind.
  - apply preserves_run_sgd. intros p d. apply base_objective_keeps.
  - intros [params losses]. apply preserves_assign, keeps_set.
Qed.

Lemma closed_form_step_keeps (fp : Model F) (name conc : string)
    (stat : Posterior F -> Array F) (batch_posteriors : Posterior F)
    (self : Model F) :
  (forall p, getattr name self = Ok p -> is_frozen p = false) ->
  keeps fp self ->
  keeps fp
    (snd ((c <- call (getattr conc) ;;
           counts <- call (fun _ => sum_axis0 (stat batch_posteriors)) ;;
           alpha <- call (fun _ => np_add (value c) counts) ;;
           update (assign_value name (Dirichlet_mode (mkDirichlet alpha))))%py
            self)).
Proof.
  intros Hnf Hk. unfold bind, call, update.
  destruct (getattr conc self) as [c|e]; [|exact Hk].
  destruct (sum_axis0 _) as [counts|e]; [|exact Hk].
  destruct (np_add _ _) as [alpha|e]; [|exact Hk].
  destruct (assign_value name _ self) as [self'|e] eqn:Ha; [|exact Hk].
  simpl. unfold keeps in *. rewrite <- Hk.
  exact (frozen_assign_value name _ self self' Ha Hnf).
Qed.

(** C2.  [m_step] returns no value (its result type is [unit]).  On every
    path through [BaseHMM.m_step] the frozen parameters of the model are
    what they were, and when it returns, the model is the one obtained by
    writing the vector of parameters that the optimizer returned into the
    non-frozen parameters.  [StandardHMM.m_step] assigns the parameters
    [_initial_probs] and [_transition_matrix]; when these two are not
    frozen it too leaves every frozen parameter, among them the two
    concentration hyperparameters, as it was; and when it returns, both
    closed-form sub-steps have completed and the model is the one obtained
    by writing the optimizer's vector of the emission sub-step into the
    non-frozen parameters. *)
Theorem m_step_frame (bs : nat) (sh : bool) (key : PRNGKey)
    (batch_emissions : Array F) (batch_posteriors : Posterior F)
    (optimizer : Optimizer) (num_mstep_iters : nat) (self : Model F) :
  frozen_params
    (snd (BaseHMM.m_step cls bs sh key batch_emissions batch_posteriors
                         optimizer num_mstep_iters self))
  = frozen_params self
  /\
  (forall r self',
     BaseHMM.m_step cls bs sh key batch_emissions batch_posteriors
                    optimizer num_mstep_iters self = (Ok r, self') ->
     exists params losses self1,
       run_sgd (BaseHMM.neg_expected_log_joint cls batch_emissions)
               (get_unconstrained_params self)
               (batch_emissions, batch_posteriors)
               optimizer bs num_mstep_iters sh key self
       = (Ok (params, losses), self1) /\
       self' = set_unconstrained_params params self1)
  /\
  ((forall p, getattr "_initial_probs" self = Ok p -> is_frozen p = false) ->
   (forall p, getattr "_transition_matrix" self = Ok p -> is_frozen p = false) ->
   frozen_params
     (snd (StandardHMM.m_step cls bs sh key batch_emissions batch_posteriors
                              optimizer num_mstep_iters self))
   = frozen_params self)
  /\
  (forall r self',
     StandardHMM.m_step cls bs sh key batch_emissions batch_posteriors
                        optimizer num_mstep_iters self = (Ok r, self') ->
     exists self1 self2 params losses self3,
       StandardHMM._m_step_initial_probs batch_emissions batch_posteriors self
       = (Ok tt, self1) /\
       StandardHMM._m_step_transition_matrix batch_emissions batch_posteriors self1
       = (Ok tt, self2) /\
       run_sgd (StandardHMM.neg_expected_log_joint cls batch_emissions)
               (get_unconstrained_params self2)
               (batch_emissions, batch_posteriors)
               optimizer bs num_mstep_iters sh key self2
       = (Ok (params, losses), self3) /\
       self' = set_unconstrained_params params self3).
Proof.
  split; [|split; [|split]].
  - apply (base_m_step_keeps (frozen_params self)). reflexivity.
  - intros r self'. unfold BaseHMM.m_step, bind, read_unconstrained_params,
      assign_unconstrained_params.
    destruct (run_sgd _ _ _ _ _ _ _ _ self) as [[[params losses]|e] self1];
      intros Heq; [|discriminate].
    injection Heq as _ <-. exists params, losses, self1. split; reflexivity.
  - intros Hi Ht. unfold StandardHMM.m_step.
    set (fp := frozen_params self).
    assert (H0 : keeps fp self) by reflexivity.
    pose proof (closed_form_step_keeps fp "_initial_probs"
                  "_initial_probs_concentration" (@initial_probs F)
                  batch_posteriors self Hi H0) as H1.
    fold (StandardHMM._m_step_initial_probs batch_emissions batch_posteriors) in H1.
    unfold bind at 1.
    destruct (StandardHMM._m_step_initial_probs batch_emissions batch_posteriors self)
      as [[u|e] self1] eqn:E1; cbn [snd] in *; [|exact H1].
    assert (Ht1 : forall p, getattr "_transition_matrix" self1 = Ok p ->
                            is_frozen p = false).
    { intros p Hp. apply Ht. rewrite <- Hp. symmetry.
      revert E1. unfold StandardHMM._m_step_initial_probs, bind, call, update.
      destruct (getattr "_initial_probs_concentration" self) as [c|e];
        [|discriminate].
      destruct (sum_axis0 _) as [counts|e]; [|discriminate].
      destruct (np_add _ _) as [alpha|e]; [|discriminate].
      destruct (assign_value _ _ self) as [s'|e] eqn:Ha; [|discriminate].
      intros Heq. injection Heq as _ <-.
      apply (assign_value_frame "_initial_probs" _ self s' Ha). discriminate. }
    pose proof (closed_form_step_keeps fp "_transition_matrix"
                  "_transition_matrix_concentration" (@trans_probs F)
                  batch_posteriors self1 Ht1 H1) as H2.
    fold (StandardHMM._m_step_transition_matrix batch_emissions batch_posteriors)
      in H2.
    unfold bind at 1.
    destruct (StandardHMM._m_step_transition_matrix batch_emissions
                batch_posteriors self1)
      as [[u2|e] self2] eqn:E2; cbn [snd] in *; [|exact H2].
    unfold StandardHMM._m_step_emissions.
    apply (preserves_bind (keeps fp)); [apply preserves_read | | exact H2].
    intros params0. apply preserves_bind.
    + apply preserves_run_sgd. intros p d. apply standard_objective_keeps.
    + intros [params losses]. apply preserves_assign, keeps_set.
  - intros r self'. unfold StandardHMM.m_step, StandardHMM._m_step_emissions.
    unfold bind at 1.
    destruct (StandardHMM._m_step_initial_probs batch_emissions batch_posteriors self)
      as [[[]|e] self1] eqn:E1; [|discriminate].
    unfold bind at 1.
    destruct (StandardHMM._m_step_transition_matrix batch_emissions
                batch_posteriors self1)
      as [[[]|e] self2] eqn:E2; [|discriminate].
    unfold bind, read_unconstrained_params, assign_unconstrained_params.
    destruct (run_sgd _ _ _ _ _ _ _ _ self2) as [[[params losses]|e] self3] eqn:E3;
      intros Heq; [|discriminate].
    injection Heq as _ <-.
    exists self1, self2, params, losses, self3.
    split; [reflexivity|]. split; [exact E2|]. split; [exact E3 | reflexivity].
Qed.
End MStep.

(** ** The EM loop *)

Section FitEM.
Context {F : Type} {SF : Scalar F} {INF : Inference F}
        {TR : Transforms F} {OPT : Optim F}.
Variable cls : HMMClass F.
Variable self_m_step : Array F -> Posterior F -> M F unit.
Variable batch_emissions : Array F.

Let step := BaseHMM.em_step cls self_m_step batch_emissions.

(** What one EM step records: the log prior plus the summed marginal
    log-likelihoods of the E-step posteriors, both taken on the object as
    it stands once [params] has been written, before the M-step runs. *)
Lemma em_step_records (params params' : Params F) (lp : F) (self self' : Model F) :
  step params self = (Ok (params', lp), self') ->
  exists posteriors lp0,
    BaseHMM.e_step cls (set_unconstrained_params params self) batch_emissions
    = Ok posteriors /\
    log_prior cls (set_unconstrained_params params self) = Ok lp0 /\
    lp = fadd lp0 (np_sum (marginal_loglik posteriors)).
Proof.
  unfold step, BaseHMM.em_step, bind, call, assign_unconstrained_params,
    read_unconstrained_params, ret.
  destruct (BaseHMM.e_step cls _ batch_emissions) as [posteriors|e];
    [|discriminate].
  destruct (log_prior cls _) as [lp0|e]; [|discriminate].
  destruct (self_m_step batch_emissions posteriors _) as [[u|e] s1];
    [|discriminate].
  intros Heq. injection Heq as _ <- _.
  exists posteriors, lp0. repeat split; reflexivity.
Qed.

Let recorded_at (params : Params F) (self : Model F) (i : nat) (v : F) : Prop :=
  exists params_i self_i posteriors lp0,
    loop_state step i params self = Some (params_i, self_i) /\
    BaseHMM.e_step cls (set_unconstrained_params params_i self_i) batch_emissions
    = Ok posteriors /\
    log_prior cls (set_unconstrained_params params_i self_i) = Ok lp0 /\
    v = fadd lp0 (np_sum (marginal_loglik posteriors)).

Lemma em_loop_records (n : nat) :
  forall (params : Params F) (self : Model F) (acc : list F)
         (params_n : Params F) (self_n : Model F),
    loop_state step n params self = Some (params_n, self_n) ->
    exists lps,
      BaseHMM.em_loop cls self_m_step batch_emissions n params acc self
      = (Ok (params_n, acc ++ lps), self_n) /\
      length lps = n /\
      forall i, i < n -> exists v, nth_error lps i = Some v /\
                                   recorded_at params self i v.
Proof.
  induction n as [|n IH]; intros params self acc params_n self_n Hn.
  - simpl in Hn. injection Hn as <- <-. exists []. split; [|split].
    + simpl. now rewrite app_nil_r.
    + reflexivity.
    + intros i Hi. lia.
  - cbn [loop_state] in Hn.
    destruct (step params self) as [[[params1 lp]|e] self1] eqn:Hs;
      [|discriminate].
    destruct (IH params1 self1 (acc ++ [lp]) params_n self_n Hn)
      as [lps [Hloop [Hlen Hrec]]].
    exists (lp :: lps). split; [|split].
    + cbn [BaseHMM.em_loop]. unfold bind at 1. fold step. rewrite Hs.
      rewrite Hloop, <- app_assoc. reflexivity.
    + simpl. now rewrite Hlen.
    + intros [|i] Hi.
      * exists lp. split; [reflexivity|].
        destruct (em_step_records _ _ _ _ _ Hs) as [ps [lp0 [He [Hp Hv]]]].
        exists params, self, ps, lp0. repeat split; assumption.
      * destruct (Hrec i) as [v [Hv Hr]]; [lia|].
        exists v. split; [exact Hv|].
        destruct Hr as [pi [si [ps [lp0 [Hst Hr]]]]].
        exists pi, si, ps, lp0. split; [|exact Hr].
        cbn [loop_state]. fold step. rewrite Hs. exact Hst.
Qed.

(** C6.  When the [num_iters] iterations of the loop complete, [fit_em]
    returns a trajectory with one entry per iteration, and entry [i] is
    the log prior plus the sum over the batch of the marginal
    log-likelihoods of the E-step posteriors, both evaluated on the model
    as it stood at the start of iteration [i], with that iteration's
    parameter vector written and before its M-step. *)
Theorem fit_em_trajectory (num_iters : nat) (self : Model F)
    (params_n : Params F) (self_n : Model F) :
  loop_state step num_iters (get_unconstrained_params self) self
  = Some (params_n, self_n) ->
  exists log_probs,
    BaseHMM.fit_em cls self_m_step batch_emissions num_iters self
    = (Ok log_probs, set_unconstrained_params params_n self_n) /\
    shape log_probs = [num_iters] /\
    length (data log_probs) = num_iters /\
    forall i, i < num_iters ->
      exists params_i self_i posteriors lp0,
        loop_state step i (get_unconstrained_params self) self
        = Some (params_i, self_i) /\
        BaseHMM.e_step cls (set_unconstrained_params params_i self_i)
                       batch_emissions = Ok posteriors /\
        log_prior cls (set_unconstrained_params params_i self_i) = Ok lp0 /\
        nth_error (data log_probs) i
        = Some (fadd lp0 (np_sum (marginal_loglik posteriors))).
Proof.
  intros Hn.
  destruct (em_loop_records num_iters _ self [] _ _ Hn) as [lps [Hloop [Hlen Hrec]]].
  exists (np_array lps). split; [|split; [|split]].
  - unfold BaseHMM.fit_em, bind, read_unconstrained_params,
      assign_unconstrained_params, ret.
    rewrite Hloop. reflexivity.
  - simpl. now rewrite Hlen.
  - exact Hlen.
  - intros i Hi. destruct (Hrec i Hi) as [v [Hv Hr]].
    destruct Hr as [pi [si [ps [lp0 [Hst [He [Hp Hval]]]]]]].
    exists pi, si, ps, lp0. repeat split; try assumption.
    simpl. rewrite Hv, Hval. reflexivity.
Qed.





End FitEM.

(** ** The SGD loop *)

Section FitSGD.
Context {F : Type} {SF : Scalar F} {INF : Inference F}
        {TR : Transforms F} {OPT : Optim F}.
Variable cls : HMMClass F.

Lemma in_firstn_skipn {A} (k : nat) (l : list A) (y : A) :
  In y (firstn k l) \/ In y (skipn k l) -> In y l.
Proof.
  intros H. rewrite <- (firstn_skipn k l). apply in_or_app. exact H.
Qed.

Lemma groups_of_in {A} (fuel k : nat) :
  0 < k ->
  forall (l g : list A), In g (groups_of fuel k l) -> g <> [] /\ incl g l.
Proof.
  intros Hk. induction fuel as [|fuel IH]; intros l g Hg; [destruct Hg|].
  destruct l as [|x l]; [destruct Hg|].
  cbn [groups_of] in Hg. destruct Hg as [<-|Hg].
  - split.
    + destruct k; [lia | discriminate].
    + intros y Hy. apply (in_firstn_skipn k). left. exact Hy.
  - destruct (IH _ _ Hg) as [Hne Hincl]. split; [exact Hne|].
    intros y Hy. apply (in_firstn_skipn k). right. apply Hincl. exact Hy.
Qed.

Lemma map_seq_nth {A B} (g : A -> B) (d : A) (l : list A) :
  map (fun j => g (nth j l d)) (seq 0 (length l)) = map g l.
Proof.
  induction l as [|x l IH]; [reflexivity|].
  cbn [length seq map nth]. f_equal.
  rewrite <- seq_shift, map_map. exact IH.
Qed.

Lemma mapM_map {A B C} (f : B -> result C) (h : A -> B) (xs : list A) :
  mapM f (map h xs) = mapM (fun x => f (h x)) xs.
Proof.
  induction xs as [|x xs IH]; simpl; [reflexivity|]. now rewrite IH.
Qed.

Lemma length_data_slice0 (a : Array F) (n : nat) (s : list nat) (i : nat) :
  shape a = n :: s -> length (data a) = n * numel s -> i < n ->
  length (data (slice0 i a)) = numel s.
Proof.
  intros Hs Hd Hi. unfold slice0. rewrite Hs. cbn [tl data].
  apply length_chunk_le. rewrite Hd. nia.
Qed.

(** The rows of [a[idx]] are the rows of [a] that [idx] names. *)
Lemma unstack_take (a : Array F) (n : nat) (s : list nat) (idx : list nat) :
  shape a = n :: s -> length (data a) = n * numel s ->
  Forall (fun i => i < n) idx ->
  unstack (take idx a) = Ok (map (fun i => slice0 i a) idx).
Proof.
  intros Hs Hd Hidx. unfold unstack. cbn [take shape]. f_equal.
  rewrite <- (map_seq_nth (fun i => slice0 i a) 0 idx).
  apply map_ext_in. intros j Hj. apply in_seq in Hj.
  unfold slice0 at 1. cbn [take shape data tl]. rewrite Hs. cbn [tl].
  rewrite chunk_concat with (sz := numel s).
  - rewrite nth_indep with (d' := data (slice0 0 a))
      by (rewrite length_map; lia).
    rewrite (map_nth (fun i => data (slice0 i a))).
    unfold slice0. rewrite Hs. reflexivity.
  - apply Forall_forall. intros r Hr. apply in_map_iff in Hr.
    destruct Hr as [i [<- Hi]]. rewrite Forall_forall in Hidx.
    apply (length_data_slice0 a n s i Hs Hd (Hidx i Hi)).
  - rewrite length_map. lia.
Qed.

(** The index groups that [run_sgd] cuts are non-empty and hold indices
    of sequences of the dataset. *)
Lemma minibatch_indices_in (key : PRNGKey) (n batch_size : nat) (shuffle : bool)
    (groups : list (list nat)) (idx : list nat) :
  (shuffle = true -> forallb (fun i => i <? n) (permutation key n) = true) ->
  minibatch_indices key n batch_size shuffle = Ok groups ->
  In idx groups ->
  idx <> [] /\ Forall (fun i => i < n) idx.
Proof.
  intros Hperm Hg Hidx. unfold minibatch_indices in Hg.
  destruct (batch_size =? 0) eqn:Hb; [discriminate|].
  apply Nat.eqb_neq in Hb. injection Hg as <-.
  destruct (groups_of_in _ batch_size ltac:(lia) _ _ Hidx) as [Hne Hincl].
  split; [exact Hne|].
  apply Forall_forall. intros i Hi. apply Hincl in Hi.
  destruct shuffle.
  - specialize (Hperm eq_refl). rewrite forallb_forall in Hperm.
    apply Nat.ltb_lt. now apply Hperm.
  - apply in_seq in Hi. lia.
Qed.

(** The minibatches of an epoch are the rows of the batch that the index
    groups name. *)
Lemma sample_minibatches_take (key : PRNGKey) (batch_emissions : Array F)
    (n : nat) (s : list nat) (batch_size : nat) (shuffle : bool)
    (minibatches : list (Array F)) :
  shape batch_emissions = n :: s ->
  sample_minibatches key batch_emissions batch_size shuffle = Ok minibatches ->
  exists groups,
    minibatch_indices key n batch_size shuffle = Ok groups /\
    minibatches = map (fun idx => take idx batch_emissions) groups.
Proof.
  intros Hs Hsample. unfold sample_minibatches in Hsample.
  cbn [tree_len tree_take Dataset_Array] in Hsample.
  unfold len in Hsample. rewrite Hs in Hsample. cbn [rbind] in Hsample.
  destruct (minibatch_indices key n batch_size shuffle) as [groups|e];
    [|discriminate].
  cbn [rbind] in Hsample. injection Hsample as <-.
  exists groups. split; reflexivity.
Qed.

(** What [_loss_fn] returns on the rows [idx] of the batch, when it
    returns. *)
Lemma loss_fn_on_rows (batch_emissions : Array F) (n : nat) (s : list nat)
    (idx : list nat) (params : Params F) (self self' : Model F) (v : F) :
  shape batch_emissions = n :: s ->
  length (data batch_emissions) = n * numel s ->
  idx <> [] ->
  Forall (fun i => i < n) idx ->
  BaseHMM._loss_fn cls batch_emissions params (take idx batch_emissions) self
  = (Ok v, self') ->
  exists lp0 lls,
    log_prior cls (set_unconstrained_params params self) = Ok lp0 /\
    mapM (BaseHMM.marginal_log_prob cls (set_unconstrained_params params self))
         (map (fun i => slice0 i batch_emissions) idx) = Ok lls /\
    v = fdiv (fneg (fadd lp0
                      (fmul (np_sum (stack lls))
                            (fdiv (of_nat n) (of_nat (length idx))))))
             (of_nat (size batch_emissions)).
Proof.
  intros Hs Hd Hne Hrange.
  pose proof (unstack_take batch_emissions n s idx Hs Hd Hrange) as Hun.
  unfold BaseHMM._loss_fn, bind, call, assign_unconstrained_params, ret.
  unfold len at 1. rewrite Hs. cbn [rbind].
  unfold len at 1. cbn [take shape rbind].
  unfold py_div. destruct (length idx =? 0) eqn:Hl.
  { apply Nat.eqb_eq in Hl. destruct idx; [congruence | discriminate]. }
  rewrite Hun. cbn [rbind].
  destruct (mapM _ (map (fun i => slice0 i batch_emissions) idx)) as [lls|e];
    cbn [rbind]; [|discriminate].
  destruct (log_prior cls _) as [lp0|e]; [|discriminate].
  intros Heq. injection Heq as <- _.
  exists lp0, lls. repeat split; reflexivity.
Qed.

Lemma Forall2_map_left {A B C} (R : B -> C -> Prop) (f : A -> B)
    (l : list A) (l' : list C) :
  Forall2 R (map f l) l' -> Forall2 (fun x y => R (f x) y) l l'.
Proof.
  revert l'. induction l as [|x l IH]; intros l' H; inversion H; subst;
    constructor; auto.
Qed.

Lemma Forall2_impl_in {A B} (R R' : A -> B -> Prop) (l : list A) (l' : list B) :
  (forall x y, In x l -> R x y -> R' x y) ->
  Forall2 R l l' -> Forall2 R' l l'.
Proof.
  intros Himp H. induction H as [|x y l l' Hxy Hl IH]; constructor.
  - apply Himp; [left; reflexivity | exact Hxy].
  - apply IH. intros a b Ha. apply Himp. right. exact Ha.
Qed.

Lemma Forall2_in_right {A B} (R : A -> B -> Prop) (l : list A) (l' : list B) :
  Forall2 R l l' -> forall y, In y l' -> exists x, In x l /\ R x y.
Proof.
  induction 1 as [|x y l l' Hxy Hl IH]; intros z Hz; [destruct Hz|].
  destruct Hz as [<-|Hz].
  - exists x. split; [left; reflexivity | exact Hxy].
  - destruct (IH z Hz) as [a [Ha Hr]]. exists a. split; [right|]; assumption.
Qed.

(** The steps of an epoch append one loss per minibatch, in order, and
    each is a value that the loss function returned on that minibatch. *)
Lemma sgd_steps_record (loss_fn : Params F -> Array F -> M F F)
    (optimizer : Optimizer) (minibatches : list (Array F)) :
  forall (st st' : Params F * OptState * list F) (self self' : Model F),
    foldM_py (sgd_step loss_fn optimizer) minibatches st self = (Ok st', self') ->
    exists new,
      snd st' = snd st ++ new /\
      Forall2 (fun mb v => exists p s s', loss_fn p mb s = (Ok v, s'))
              minibatches new.
Proof.
  induction minibatches as [|mb r IH]; intros st st' self self' H.
  - cbn in H. unfold ret in H. injection H as <- <-. exists [].
    split; [now rewrite app_nil_r | constructor].
  - cbn [foldM_py] in H. unfold bind at 1 in H.
    destruct (sgd_step loss_fn optimizer st mb self) as [[st1|e] self1] eqn:Hstep;
      [|discriminate].
    destruct (IH _ _ _ _ H) as [new [Hnew Hall]].
    destruct st as [[params ost] losses].
    unfold sgd_step, bind, call, ret in Hstep.
    destruct (loss_fn params mb self) as [[v|e] s1] eqn:Hl; [|discriminate].
    destruct (opt_update _ _ _ _) as [params' ost'].
    injection Hstep as <- <-.
    exists (v :: new). split.
    + rewrite Hnew. cbn [snd]. rewrite <- app_assoc. reflexivity.
    + constructor; [|exact Hall]. exists params, self, s1. exact Hl.
Qed.

Lemma sgd_epochs_record (loss_fn : Params F -> Array F -> M F F)
    (optimizer : Optimizer) (dataset : Array F) (batch_size : nat)
    (shuffle : bool) (keys : list PRNGKey) :
  forall (st st' : Params F * OptState * list F) (self self' : Model F),
    foldM_py (sgd_epoch loss_fn optimizer dataset batch_size shuffle) keys st self
    = (Ok st', self') ->
    exists minibatchess new,
      snd st' = snd st ++ new /\
      Forall2 (fun key mbs =>
                 sample_minibatches key dataset batch_size shuffle = Ok mbs)
              keys minibatchess /\
      Forall2 (fun mb v => exists p s s', loss_fn p mb s = (Ok v, s'))
              (concat minibatchess) new.
Proof.
  induction keys as [|key r IH]; intros st st' self self' H.
  - cbn in H. unfold ret in H. injection H as <- <-. exists [], [].
    split; [now rewrite app_nil_r | split; constructor].
  - cbn [foldM_py] in H. unfold bind at 1 in H.
    destruct (sgd_epoch loss_fn optimizer dataset batch_size shuffle st key self)
      as [[st1|e] self1] eqn:Hepoch; [|discriminate].
    destruct (IH _ _ _ _ H) as [mbss [new [Hnew [Hkeys Hall]]]].
    unfold sgd_epoch, bind, call in Hepoch.
    destruct (sample_minibatches key dataset batch_size shuffle) as [mbs|e] eqn:Hs;
      [|discriminate].
    destruct (sgd_steps_record _ _ _ _ _ _ _ Hepoch) as [new1 [Hnew1 Hall1]].
    exists (mbs :: mbss), (new1 ++ new). split; [|split].
    + rewrite Hnew, Hnew1, <- app_assoc. reflexivity.
    + constructor; assumption.
    + cbn [concat]. apply Forall2_app; assumption.
Qed.

(** C8.  Let the batch hold [n] sequences of [t] time steps, at least one
    of each.  When [fit_sgd] returns, the trajectory it returns holds one
    loss for every minibatch of every epoch, in the order in which
    [run_sgd] draws them.  Every minibatch is [batch[idx]] for a non-empty
    list [idx] of sequence indices, so its rows are whole sequences of the
    batch; and the loss recorded for it is the negative of the log prior
    plus the sum of the marginal log-likelihoods of its sequences times
    [n / len(minibatch)], divided by the number of elements of the full
    batch, evaluated with the parameter vector of that step written into
    the model. *)
Theorem fit_sgd_records_minibatch_losses
    (batch_emissions : Array F) (n t : nat) (s : list nat)
    (optimizer : Optimizer) (batch_size num_epochs : nat) (shuffle : bool)
    (key : PRNGKey) (self self' : Model F) (losses : Array F) :
  shape batch_emissions = n :: t :: s ->
  0 < n ->
  0 < t ->
  length (data batch_emissions) = n * numel (t :: s) ->
  (shuffle = true ->
   forall k, In k (split key num_epochs) ->
     forallb (fun i => i <? n) (permutation k n) = true) ->
  BaseHMM.fit_sgd cls batch_emissions optimizer batch_size num_epochs shuffle key self
  = (Ok losses, self') ->
  exists groupss : list (list (list nat)),
    Forall2 (fun k groups => minibatch_indices k n batch_size shuffle = Ok groups)
            (split key num_epochs) groupss /\
    shape losses = [length (concat groupss)] /\
    Forall2
      (fun idx v =>
         idx <> [] /\
         Forall (fun i => i < n) idx /\
         unstack (take idx batch_emissions)
         = Ok (map (fun i => slice0 i batch_emissions) idx) /\
         exists params state lp0 lls,
           log_prior cls (set_unconstrained_params params state) = Ok lp0 /\
           mapM (BaseHMM.marginal_log_prob
                   cls (set_unconstrained_params params state))
                (map (fun i => slice0 i batch_emissions) idx) = Ok lls /\
           v = fdiv (fneg (fadd lp0
                             (fmul (np_sum (stack lls))
                                   (fdiv (of_nat n) (of_nat (length idx))))))
                    (of_nat (size batch_emissions)))
      (concat groupss) (data losses).
Proof.
  intros Hs _ _ Hd Hperm Hfit.
  unfold BaseHMM.fit_sgd, bind, read_unconstrained_params in Hfit.
  unfold run_sgd, bind at 1 in Hfit.
  destruct (foldM_py _ (split key num_epochs) _ self) as [[st|e] self1] eqn:Hfold;
    [|discriminate].
  destruct (sgd_epochs_record _ _ _ _ _ _ _ _ _ _ Hfold)
    as [mbss [new [Hnew [Hkeys Hall]]]].
  destruct st as [[params ost] ls]. cbn [snd app] in Hnew. subst ls.
  unfold ret, assign_unconstrained_params in Hfit. injection Hfit as <- _.
  (* every epoch's minibatches come from its index groups *)
  assert (Hg : exists groupss,
             Forall2 (fun k groups =>
                        minibatch_indices k n batch_size shuffle = Ok groups)
                     (split key num_epochs) groupss /\
             mbss = map (map (fun idx => take idx batch_emissions)) groupss).
  { clear Hall Hfold Hperm. induction Hkeys as [|k mbs ks mbss' Hk Hks IH].
    - exists []. split; [constructor | reflexivity].
    - destruct IH as [gs [Hgs ->]].
      destruct (sample_minibatches_take k batch_emissions n (t :: s) batch_size
                  shuffle mbs Hs Hk) as [g [Hg ->]].
      exists (g :: gs). split; [constructor; assumption | reflexivity]. }
  destruct Hg as [groupss [Hgroups ->]].
  rewrite <- concat_map in Hall.
  exists groupss. split; [exact Hgroups|]. split.
  - cbn [np_array shape]. f_equal.
    rewrite <- (Forall2_length Hall). now rewrite length_map.
  - cbn [np_array data]. apply Forall2_map_left in Hall.
    revert Hall. apply Forall2_impl_in. intros idx v Hidx [p [st [st' Hloss]]].
    apply in_concat in Hidx. destruct Hidx as [groups [Hin Hidx]].
    destruct (Forall2_in_right _ _ _ Hgroups groups Hin) as [k [Hk Hmi]].
    destruct (minibatch_indices_in k n batch_size shuffle groups idx
                (fun Hsh => Hperm Hsh k Hk) Hmi Hidx) as [Hne Hrange].
    split; [exact Hne|]. split; [exact Hrange|]. split.
    + apply (unstack_take batch_emissions n (t :: s) idx Hs Hd Hrange).
    + destruct (loss_fn_on_rows batch_emissions n (t :: s) idx p st st' v
                  Hs Hd Hne Hrange Hloss) as [lp0 [lls [Hlp [Hlls Hv]]]].
      exists p, st, lp0, lls. repeat split; assumption.
Qed.
End FitSGD.

(** ** The theorems at the concrete instance *)

Lemma closed_form_m_step_posterior_mode_witness :
  exists self' new_init new_trans,
    (StandardHMM._m_step_initial_probs Concrete.toy_batch Concrete.toy_posteriors ;;;
     StandardHMM._m_step_transition_matrix Concrete.toy_batch Concrete.toy_posteriors)%py
      Concrete.toy_model
    = (Ok tt, self') /\
    getattr "_initial_probs" self' = Ok new_init /\
    data (value new_init) = [1 # 2; 1 # 2]%Q /\
    getattr "_transition_matrix" self' = Ok new_trans /\
    rows 2 (data (value new_trans)) = [[11 # 32; 21 # 32]; [11 # 12; 1 # 12]]%Q.
Proof.
  destruct (closed_form_m_step_posterior_mode
              Concrete.toy_model Concrete.toy_batch Concrete.toy_posteriors 2
              (mkParameter Concrete.toy_initial_probs (Invert SoftmaxCentered) false)
              (mkParameter Concrete.toy_transition_matrix (Invert SoftmaxCentered) false)
              (mkParameter (Concrete.vec [11 # 10; 11 # 10]%Q) (Invert Softplus) true)
              (mkParameter (Concrete.vec [11 # 10; 11 # 10]%Q) (Invert Softplus) true)
              (Concrete.vec [1; 1]%Q)
              (Concrete.mat 2 2 [1; 2; 1; 0]%Q))
    as [self' [new_init [new_trans H]]];
    [lia | reflexivity | reflexivity | reflexivity | reflexivity | reflexivity
    | reflexivity | reflexivity | reflexivity | reflexivity | reflexivity
    | reflexivity | reflexivity |].
  destruct H as [Hrun [Hgi [_ [Hdi [Hgt [_ [Hrt _]]]]]]].
  exists self', new_init, new_trans.
  split; [exact Hrun|]. split; [exact Hgi|]. split; [exact Hdi|].
  split; [exact Hgt | exact Hrt].
Defined.

(** A posterior concentration with a component that does not exceed one,
    prior 1 plus counts 2 and 0: the row is stored as not-a-number. *)
Example posterior_mode_undefined :
  dirichlet_posterior_mode [1; 1]%Q [2; 0]%Q = [fnan; fnan].
Proof. vm_compute. reflexivity. Qed.

Lemma m_step_frame_witness :
  frozen_params
    (snd (StandardHMM.m_step Concrete.toy_class 1 false Concrete.toy_key Concrete.toy_batch
                             Concrete.toy_posteriors Concrete.toy_optimizer 2 Concrete.toy_model))
  = frozen_params Concrete.toy_model
  /\ getattr "_initial_probs_concentration" (frozen_params Concrete.toy_model)
     = Ok (mkParameter (Concrete.vec [11 # 10; 11 # 10]%Q) (Invert Softplus) true).
Proof.
  split; [|reflexivity].
  apply (m_step_frame Concrete.toy_class 1 false Concrete.toy_key Concrete.toy_batch
                      Concrete.toy_posteriors Concrete.toy_optimizer 2 Concrete.toy_model).
  - intros p Hp. vm_compute in Hp. injection Hp as <-. reflexivity.
  - intros p Hp. vm_compute in Hp. injection Hp as <-. reflexivity.
Defined.

Lemma e_step_reduce_or_retain_witness :
  exists posteriors,
    BaseHMM.e_step Concrete.toy_class Concrete.toy_model Concrete.toy_batch
    = Ok (stack_posteriors posteriors) /\
    map (@trans_probs Q) posteriors
    = [Concrete.toy_transition_matrix; Concrete.toy_transition_matrix].
Proof.
  destruct (@e_step_reduce_or_retain _ _
              Concrete.toy_class Concrete.toy_model Concrete.toy_batch
              [slice0 0 Concrete.toy_batch; slice0 1 Concrete.toy_batch]
              Concrete.toy_transition_matrix Concrete.toy_initial_probs 2 3 2 [1])
    as [posteriors [He Hall]];
    [reflexivity | lia | lia | reflexivity | lia
    | reflexivity | reflexivity | reflexivity | reflexivity |].
  exists posteriors. split; [exact He|].
  inversion Hall as [|em0 p0 r0 ps0 H0 Hall0]; subst.
  inversion Hall0 as [|em1 p1 r1 ps1 H1 Hall1]; subst.
  inversion Hall1; subst.
  destruct H0 as [ll0 [_ [_ [R0 _]]]]. destruct H1 as [ll1 [_ [_ [R1 _]]]].
  cbn [map]. rewrite (R0 eq_refl), (R1 eq_refl). reflexivity.
Defined.

Lemma compute_transition_matrices_rows_witness :
  (exists m,
     BaseHMM._compute_transition_matrices Concrete.toy_covariate_class
                                          Concrete.toy_model [] = Ok m /\
     shape m = [2; 2])
  /\
  (exists t,
     BaseHMM._compute_transition_matrices
       Concrete.toy_covariate_class Concrete.toy_model
       [("u", Concrete.mat 3 2 [1; 0; 1 # 2; 1 # 2; 0; 1]%Q)] = Ok t /\
     hd_error (shape t) = Some 3).
Proof.
  destruct (@compute_transition_matrices_rows _
              Concrete.toy_covariate_class Concrete.toy_model 2
              (fun cov i =>
                 match cov with
                 | [] => slice0 i Concrete.toy_transition_matrix
                 | (_, u) :: _ =>
                     if well_shaped [2] u then u else Concrete.toy_initial_probs
                 end)
              [("u", Concrete.mat 3 2 [1; 0; 1 # 2; 1 # 2; 0; 1]%Q)] 3)
    as [Hnone Hcov].
  - reflexivity.
  - lia.
  - intros cov i Hi. destruct cov as [|[name u] rest].
    + destruct i as [|[|i]]; [split; reflexivity | split; reflexivity | lia].
    + destruct (well_shaped [2] u) eqn:Hu; [|split; reflexivity].
      apply well_shaped_spec in Hu. exact Hu.
  - split.
    + destruct Hnone as [m [Hm [Hs _]]].
      * intros i Hi. destruct i as [|[|i]]; [reflexivity | reflexivity | lia].
      * exists m. split; assumption.
    + destruct Hcov as [t [Ht [Hs _]]].
      * discriminate.
      * lia.
      * repeat constructor.
      * intros j i Hj Hi.
        destruct j as [|[|[|j]]]; [reflexivity | reflexivity | reflexivity | lia].
      * exists t. split; assumption.
Defined.

Lemma fit_em_trajectory_witness :
  exists log_probs self',
    BaseHMM.fit_em Concrete.toy_class
      (fun b p => BaseHMM.m_step Concrete.toy_class 1 false Concrete.toy_key b p
                                 Concrete.toy_optimizer 2)
      Concrete.toy_batch 2 Concrete.toy_model
    = (Ok log_probs, self') /\
    shape log_probs = [2] /\
    nth_error (data log_probs) 0 = Some (127 # 2)%Q.
Proof.
  edestruct (fit_em_trajectory Concrete.toy_class
               (fun b p => BaseHMM.m_step Concrete.toy_class 1 false Concrete.toy_key b p
                                 Concrete.toy_optimizer 2)
               Concrete.toy_batch 2 Concrete.toy_model)
    as [log_probs [Hfit [Hshape [_ Hentry]]]].
  - vm_compute. reflexivity.
  - exists log_probs. eexists. split; [exact Hfit|]. split; [exact Hshape|].
    destruct (Hentry 0) as [p0 [s0 [ps [lp0 [Hst [He [Hp Hv]]]]]]]; [lia|].
    cbn [loop_state] in Hst. injection Hst as <- <-.
    rewrite Hv. f_equal.
    vm_compute in He. injection He as <-.
    vm_compute in Hp. injection Hp as <-.
    vm_compute. reflexivity.
Defined.


(** Under the same transforms a model whose probabilities are on the
    simplex is left as it was. *)
Example fit_em_zero_iterations_on_simplex :
  BaseHMM.fit_em (TR := Concrete.Transforms_normalising) Concrete.toy_class
    (fun b p => BaseHMM.m_step (TR := Concrete.Transforms_normalising)
                  Concrete.toy_class 1 false Concrete.toy_key b p
                  Concrete.toy_optimizer 2)
    Concrete.toy_batch 0 Concrete.toy_model
  = (Ok (mkArray [0] []), Concrete.toy_model).
Proof. vm_compute. reflexivity. Qed.

Lemma fit_sgd_records_minibatch_losses_witness :
  exists losses groupss,
    fst (BaseHMM.fit_sgd Concrete.toy_class Concrete.toy_batch Concrete.toy_optimizer
                         1 2 true Concrete.toy_key Concrete.toy_model)
    = Ok losses /\
    Forall2 (fun k groups => minibatch_indices k 2 1 true = Ok groups)
            (split Concrete.toy_key 2) groupss /\
    shape losses = [length (concat groupss)] /\
    Forall2 (fun idx v =>
               idx <> [] /\
               unstack (take idx Concrete.toy_batch)
               = Ok (map (fun i => slice0 i Concrete.toy_batch) idx))
            (concat groupss) (data losses).
Proof.
  edestruct (fit_sgd_records_minibatch_losses
               Concrete.toy_class Concrete.toy_batch 2 3 [1]
               Concrete.toy_optimizer 1 2 true Concrete.toy_key Concrete.toy_model)
    as [groupss [Hgroups [Hshape Hall]]].
  - reflexivity.
  - lia.
  - lia.
  - reflexivity.
  - intros _ k _. reflexivity.
  - vm_compute. reflexivity.
  - eexists. exists groupss.
    split; [vm_compute; reflexivity|]. split; [exact Hgroups|].
    split; [exact Hshape|].
    revert Hall. apply Forall2_impl_in. intros idx v _ [Hne [_ [Hun _]]].
    split; assumption.
Defined.

(** The trajectory of that run: two epochs over two minibatches of one
    sequence, the second sequence first. *)
Example fit_sgd_toy_trajectory :
  fst (BaseHMM.fit_sgd Concrete.toy_class Concrete.toy_batch Concrete.toy_optimizer
                       1 2 true Concrete.toy_key Concrete.toy_model)
  = Ok (mkArray [4] [- (181 # 12); - (73 # 12); - (181 # 12); - (73 # 12)]%Q)
  /\ minibatch_indices Concrete.toy_key 2 1 true = Ok [[1]; [0]].
Proof. split; vm_compute; reflexivity. Qed.

(** The loss of the minibatch that holds the second sequence alone. *)
Example loss_on_second_sequence :
  fst (BaseHMM._loss_fn Concrete.toy_class Concrete.toy_batch
         (get_unconstrained_params Concrete.toy_model)
         (take [1] Concrete.toy_batch) Concrete.toy_model)
  = Ok (- (181 # 12))%Q.
Proof. vm_compute. reflexivity. Qed.

(** * Further properties of base.py *)

(** ** Slices put back together *)

Section Reassembly.
Context {F : Type}.

Lemma chunk_succ_skipn {A} (sz i : nat) (d : list A) :
  chunk sz (S i) d = chunk sz i (skipn sz d).
Proof.
  unfold chunk. rewrite skipn_skipn. f_equal. f_equal. lia.
Qed.

Lemma concat_chunks {A} (sz n : nat) :
  forall d : list A,
    length d = n * sz ->
    concat (map (fun i => chunk sz i d) (seq 0 n)) = d.
Proof.
  induction n as [|n IH]; intros d Hd.
  - simpl in *. destruct d; [reflexivity | discriminate].
  - cbn [seq map concat]. rewrite <- seq_shift, map_map.
    rewrite (map_ext _ (fun i => chunk sz i (skipn sz d)))
      by (intros i; apply chunk_succ_skipn).
    rewrite IH by (rewrite length_skipn; lia).
    unfold chunk. cbn [Nat.mul skipn]. apply firstn_skipn.
Qed.

(** Stacking the slices of a well-formed array gives the array back. *)
Lemma stack_slices (a : Array F) (n : nat) (s : list nat) :
  shape a = S n :: s ->
  length (data a) = S n * numel s ->
  stack (map (fun i => slice0 i a) (seq 0 (S n))) = a.
Proof.
  intros Hs Hd. destruct a as [sa da]. cbn [shape data] in *. subst sa.
  unfold stack. rewrite length_map, length_seq.
  cbn [seq map]. unfold slice0 at 1. cbn [shape tl].
  f_equal. rewrite map_map.
  change (concat (map (fun i => chunk (numel s) i da) (seq 0 (S n))) = da).
  now apply concat_chunks.
Qed.

Lemma uniform_scalars (xs : list F) : uniform [] (map (@scalar F) xs).
Proof.
  apply Forall_forall. intros x Hx. apply in_map_iff in Hx.
  destruct Hx as [y [<- _]]. split; reflexivity.
Qed.
End Reassembly.

(** ** Statistics of the emissions and of a constructed model *)

Section DerivedStatistics.
Context {F : Type} {SF : Scalar F} {INF : Inference F}.

(** Every entry of the conditional log-likelihood matrix is the log
    probability of one observation under one state: for [t_len] time steps
    and [k] states whose emission distributions return scalar log
    probabilities, [_compute_conditional_logliks] returns a [t_len] by [k]
    matrix whose entry [(t, state)] is
    [emission_distribution(state).log_prob(emissions[t])]. *)
Theorem conditional_logliks_entries
    (cls : HMMClass F) (self : Model F) (emissions : Array F)
    (t_len : nat) (s : list nat) (k : nat) (lp : nat -> Array F -> F) :
  shape emissions = t_len :: s ->
  0 < t_len ->
  BaseHMM.num_states cls self = Ok k ->
  0 < k ->
  (forall state, state < k ->
     exists d, emission_distribution cls self state = Ok d /\
               forall e, log_prob d e = scalar (lp state e)) ->
  exists m,
    BaseHMM._compute_conditional_logliks cls self emissions = Ok m /\
    shape m = [t_len; k] /\
    forall t state, t < t_len -> state < k ->
      exists row,
        index m t = Ok row /\
        index row state = Ok (scalar (lp state (slice0 t emissions))).
Proof.
  intros Hs Ht Hk Hkpos Hem.
  set (row := fun e : Array F =>
                stack (map (fun state => scalar (lp state e)) (seq 0 k))).
  assert (Hrow : forall e, shape (row e) = [k] /\ length (data (row e)) = numel [k]).
  { intros e. unfold row. split.
    - rewrite shape_stack with (s := @nil nat).
      + now rewrite length_map, length_seq.
      + rewrite <- map_map. apply uniform_scalars.
      + destruct k; [lia | discriminate].
    - rewrite length_data_stack with (s := @nil nat)
        by (rewrite <- map_map; apply uniform_scalars).
      now rewrite length_map, length_seq. }
  unfold BaseHMM._compute_conditional_logliks, unstack. rewrite Hs. cbn [rbind].
  rewrite mapM_ok with (g := row).
  2:{ intros e _. rewrite Hk. cbn [rbind].
      rewrite mapM_ok with (g := fun state => scalar (lp state e)); [reflexivity|].
      intros state Hstate. apply in_seq in Hstate.
      destruct (Hem state) as [d [Hd Hl]]; [lia|].
      rewrite Hd. cbn [rbind]. now rewrite Hl. }
  cbn [rbind]. eexists. split; [reflexivity|].
  assert (Hu : uniform [k] (map row (map (fun i => slice0 i emissions) (seq 0 t_len)))).
  { apply Forall_forall. intros x Hx. apply in_map_iff in Hx.
    destruct Hx as [e [<- _]]. apply Hrow. }
  split.
  - rewrite shape_stack with (s := [k]); [|exact Hu|].
    + now rewrite !length_map, length_seq.
    + destruct t_len; [lia | discriminate].
  - intros t state Hlt Hst. exists (row (slice0 t emissions)). split.
    + apply index_stack with (s := [k]); [exact Hu|].
      rewrite map_map.
      now apply (nth_error_map_seq (fun i => row (slice0 i emissions))).
    + unfold row. apply index_stack with (s := @nil nat).
      * rewrite <- map_map. apply uniform_scalars.
      * now apply (nth_error_map_seq
                     (fun st => scalar (lp st (slice0 t emissions)))).
Qed.

Lemma init_ok_inv (ip tm : Array F) (c1 c2 : F) (self : Model F) :
  StandardHMM.__init__ ip tm c1 c2 = Ok self ->
  let k := last (shape tm) 0 in
  shape ip = [k] /\ shape tm = [k; k] /\
  self = [ ("_initial_probs", mkParameter ip (Invert SoftmaxCentered) false);
           ("_transition_matrix", mkParameter tm (Invert SoftmaxCentered) false);
           ("_initial_probs_concentration",
            mkParameter (scale_by c1 (ones k)) (Invert Softplus) true);
           ("_transition_matrix_concentration",
            mkParameter (scale_by c2 (ones k)) (Invert Softplus) true) ].
Proof.
  intros Hinit k. unfold StandardHMM.__init__ in Hinit.
  rewrite last_dim_last in Hinit. fold k in Hinit.
  destruct (shape tm) as [|d ds] eqn:Hs; [discriminate|].
  cbn [rbind] in Hinit.
  destruct (shape_eqb (shape ip) [k]) eqn:Hip;
    cbn [rbind StandardHMM.py_assert] in Hinit; [|discriminate].
  destruct (shape_eqb (d :: ds) [k; k]) eqn:Htm;
    cbn [rbind StandardHMM.py_assert] in Hinit; [|discriminate].
  apply shape_eqb_eq in Hip. apply shape_eqb_eq in Htm.
  injection Hinit as <-. repeat split; assumption.
Qed.

(** The statistics of a model as the constructor leaves it. *)
Lemma constructed_statistics (ip tm : Array F) (c1 c2 : F) (self : Model F)
    (k : nat)
    (emis : Model F -> nat -> result (Distribution F))
    (lprior : Model F -> result F)
    (cl : option (Model F -> Array F -> result (Array F))) :
  StandardHMM.__init__ ip tm c1 c2 = Ok self ->
  shape tm = [S k; S k] ->
  let cls := StandardHMM.class_of emis lprior cl in
  BaseHMM.num_states cls self = Ok (S k) /\
  BaseHMM._compute_initial_probs cls self = Ok ip /\
  BaseHMM._compute_transition_matrices cls self []
  = Ok (stack (map (fun i => slice0 i tm) (seq 0 (S k)))).
Proof.
  intros Hinit Hs cls.
  destruct (init_ok_inv ip tm c1 c2 self Hinit) as [Hip [_ Hself]].
  rewrite Hs in Hip, Hself. cbn [last] in Hip, Hself.
  assert (Hn : BaseHMM.num_states cls self = Ok (S k)).
  { unfold BaseHMM.num_states. subst self. cbn. rewrite Hip. reflexivity. }
  split; [exact Hn|]. split.
  - subst self. reflexivity.
  - unfold BaseHMM._compute_transition_matrices. cbn [length Nat.ltb Nat.leb].
    unfold BaseHMM.transition_rows. rewrite Hn. cbn [rbind].
    rewrite mapM_ok with (g := fun i => slice0 i tm); [reflexivity|].
    intros i Hi. apply in_seq in Hi. subst self. cbn.
    unfold index. rewrite Hs.
    replace (i <? S k) with true by (symmetry; apply Nat.ltb_lt; lia).
    reflexivity.
Qed.

Lemma constructed_transition_matrices (ip tm : Array F) (c1 c2 : F)
    (self : Model F) (k : nat)
    (emis : Model F -> nat -> result (Distribution F))
    (lprior : Model F -> result F)
    (cl : option (Model F -> Array F -> result (Array F))) :
  StandardHMM.__init__ ip tm c1 c2 = Ok self ->
  shape tm = [S k; S k] ->
  length (data tm) = S k * S k ->
  BaseHMM._compute_transition_matrices (StandardHMM.class_of emis lprior cl) self []
  = Ok tm.
Proof.
  intros Hinit Hs Hd.
  destruct (constructed_statistics ip tm c1 c2 self k emis lprior cl Hinit Hs)
    as [_ [_ Htm]].
  rewrite Htm. f_equal. apply (stack_slices tm k [S k] Hs).
  cbn [numel fold_right]. lia.
Qed.

(** Construct, then extract: for a model built by [__init__] from a
    non-empty, well-formed [K] by [K] transition matrix, [num_states] is
    [K], [_compute_initial_probs] returns the initial probabilities that
    were passed in, and [_compute_transition_matrices] without covariates
    returns the transition matrix that was passed in. *)
Theorem constructed_model_statistics (ip tm : Array F) (c1 c2 : F)
    (self : Model F) (k : nat)
    (emis : Model F -> nat -> result (Distribution F))
    (lprior : Model F -> result F)
    (cl : option (Model F -> Array F -> result (Array F))) :
  StandardHMM.__init__ ip tm c1 c2 = Ok self ->
  shape tm = [S k; S k] ->
  length (data tm) = S k * S k ->
  let cls := StandardHMM.class_of emis lprior cl in
  BaseHMM.num_states cls self = Ok (S k) /\
  BaseHMM._compute_initial_probs cls self = Ok ip /\
  BaseHMM._compute_transition_matrices cls self [] = Ok tm /\
  StandardHMM.initial_probs self
  = Ok (mkParameter ip (Invert SoftmaxCentered) false) /\
  StandardHMM.transition_matrix self
  = Ok (mkParameter tm (Invert SoftmaxCentered) false).
Proof.
  intros Hinit Hs Hd cls.
  destruct (constructed_statistics ip tm c1 c2 self k emis lprior cl Hinit Hs)
    as [Hn [Hip Htm]].
  split; [exact Hn|]. split; [exact Hip|]. split.
  - exact (constructed_transition_matrices ip tm c1 c2 self k emis lprior cl
             Hinit Hs Hd).
  - destruct (init_ok_inv ip tm c1 c2 self Hinit) as [_ [_ Hself]].
    subst self. split; reflexivity.
Qed.

(** [StandardHMM.transition_distribution] takes no covariates: on a model
    with at least one state, [_compute_transition_matrices] called with
    covariates that have at least one realization raises [TypeError]. *)
Theorem standard_hmm_rejects_covariates
    (emis : Model F -> nat -> result (Distribution F))
    (lprior : Model F -> result F)
    (cl : option (Model F -> Array F -> result (Array F)))
    (self : Model F) (k : nat) (covariates : Kwargs F) (b : nat) :
  let cls := StandardHMM.class_of emis lprior cl in
  BaseHMM.num_states cls self = Ok (S k) ->
  covariates <> [] ->
  Forall (fun nc => hd_error (shape (snd nc)) = Some (S b)) covariates ->
  BaseHMM._compute_transition_matrices cls self covariates = Err TypeError.
Proof.
  intros cls Hn Hne Hall.
  unfold BaseHMM._compute_transition_matrices.
  replace (0 <? length covariates) with true
    by (destruct covariates; [congruence | reflexivity]).
  rewrite (kwargs_slices_ok Hne Hall). cbn [rbind seq map mapM].
  unfold BaseHMM.transition_rows at 1. rewrite Hn. cbn [rbind seq mapM].
  destruct covariates as [|nc rest]; [congruence|]. reflexivity.
Qed.
End DerivedStatistics.

(** ** Inference on a StandardHMM *)

Section StandardInference.
Context {F : Type} {SF : Scalar F} {INF : Inference F}.

(** For a model built by [__init__] the transition-matrix statistic is the
    rank-2 matrix that was passed in, so the E-step always stores the
    transition statistics summed over time: on a batch of at least one
    sequence, each of at least one time step, whose sequences all have
    conditional log-likelihoods, [e_step] returns the stacked
    posteriors of the two-filter smoother, each with [trans_probs] set to
    [compute_transition_probs(..., reduce_sum=True)]. *)
Theorem constructed_model_e_step_reduces (ip tm : Array F) (c1 c2 : F)
    (self : Model F) (k : nat)
    (emis : Model F -> nat -> result (Distribution F))
    (lprior : Model F -> result F)
    (cl : option (Model F -> Array F -> result (Array F)))
    (batch_emissions : Array F) (sequences : list (Array F))
    (ll : Array F -> Array F) (n t : nat) (s : list nat) :
  StandardHMM.__init__ ip tm c1 c2 = Ok self ->
  shape tm = [S k; S k] ->
  length (data tm) = S k * S k ->
  shape batch_emissions = S n :: S t :: s ->
  let cls := StandardHMM.class_of emis lprior cl in
  unstack batch_emissions = Ok sequences ->
  (forall em, In em sequences ->
     BaseHMM._compute_conditional_logliks cls self em = Ok (ll em)) ->
  BaseHMM.e_step cls self batch_emissions
  = Ok (stack_posteriors
          (map (fun em =>
                  let smoothed := hmm_two_filter_smoother ip tm (ll em) in
                  set_trans_probs (compute_transition_probs tm smoothed true)
                                  smoothed)
               sequences)).
Proof.
  intros Hinit Hs Hd _ cls Hun Hll.
  destruct (constructed_statistics ip tm c1 c2 self k emis lprior cl Hinit Hs)
    as [_ [Hip _]].
  pose proof (constructed_transition_matrices ip tm c1 c2 self k emis lprior cl
                Hinit Hs Hd) as Htm.
  fold cls in Hip, Htm.
  unfold BaseHMM.e_step. rewrite Hun. cbn [rbind].
  rewrite mapM_ok
    with (g := fun em =>
                 let smoothed := hmm_two_filter_smoother ip tm (ll em) in
                 set_trans_probs (compute_transition_probs tm smoothed true)
                                 smoothed); [reflexivity|].
  intros em Hem. unfold BaseHMM._single_e_step.
  rewrite Htm, Hip, (Hll em Hem). cbn [rbind].
  unfold ndim. rewrite Hs. reflexivity.
Qed.

Lemma abstract_logliks_raise (lprior : Model F -> result F) (self : Model F)
    (k : nat) (emissions : Array F) (t : nat) (s : list nat) :
  BaseHMM.num_states (StandardHMM.abstract_class lprior) self = Ok (S k) ->
  shape emissions = S t :: s ->
  BaseHMM._compute_conditional_logliks (StandardHMM.abstract_class lprior)
                                       self emissions
  = Err NotImplementedError.
Proof.
  intros Hn Hs. unfold BaseHMM._compute_conditional_logliks, unstack.
  rewrite Hs. cbn [rbind seq map mapM]. rewrite Hn. reflexivity.
Qed.

(** [StandardHMM.emission_distribution] is abstract.  On a model built by
    [__init__] with at least one state whose class does not override it,
    every inference method raises [NotImplementedError] on a sequence with
    at least one time step, and so do [e_step] on a batch with at least one
    such sequence and [num_obs]. *)
Theorem abstract_emissions_not_implemented (ip tm : Array F) (c1 c2 : F)
    (self : Model F) (k : nat) (lprior : Model F -> result F)
    (emissions batch_emissions : Array F) (n t : nat) (s : list nat) :
  StandardHMM.__init__ ip tm c1 c2 = Ok self ->
  shape tm = [S k; S k] ->
  shape emissions = S t :: s ->
  shape batch_emissions = S n :: S t :: s ->
  let cls := StandardHMM.abstract_class lprior in
  BaseHMM.marginal_log_prob cls self emissions = Err NotImplementedError /\
  BaseHMM.most_likely_states cls self emissions = Err NotImplementedError /\
  BaseHMM.filter cls self emissions = Err NotImplementedError /\
  BaseHMM.smoother cls self emissions = Err NotImplementedError /\
  BaseHMM.e_step cls self batch_emissions = Err NotImplementedError /\
  BaseHMM.num_obs cls self = Err NotImplementedError.
Proof.
  intros Hinit Hs He Hb cls. subst cls.
  destruct (constructed_statistics ip tm c1 c2 self k
              StandardHMM.emission_distribution lprior None Hinit Hs)
    as [Hn [Hip Htm]].
  change (StandardHMM.class_of StandardHMM.emission_distribution lprior None)
    with (StandardHMM.abstract_class lprior) in Hn, Hip, Htm.
  pose proof (abstract_logliks_raise lprior self k emissions t s Hn He) as Hl.
  unfold BaseHMM.marginal_log_prob, BaseHMM.most_likely_states, BaseHMM.filter,
    BaseHMM.smoother.
  rewrite Hip, Htm, Hl. cbn [rbind].
  repeat (split; [reflexivity|]). split; [|reflexivity].
  unfold BaseHMM.e_step, unstack. rewrite Hb. cbn [rbind seq map mapM].
  unfold BaseHMM._single_e_step at 1. rewrite Htm, Hip. cbn [rbind].
  rewrite (abstract_logliks_raise lprior self k (slice0 0 batch_emissions) t s Hn).
  - reflexivity.
  - unfold slice0. rewrite Hb. reflexivity.
Qed.

(** The four inference methods compute the same three statistics in the
    same order: when [filter] returns, [smoother], [most_likely_states] and
    [marginal_log_prob] return what their primitives give on the statistics
    [filter] used, and when [filter] raises they raise the same exception. *)
Theorem inference_methods_agree (cls : HMMClass F) (self : Model F)
    (emissions : Array F) :
  match BaseHMM.filter cls self emissions with
  | Ok post =>
      exists ip tm ll,
        BaseHMM._compute_initial_probs cls self = Ok ip /\
        BaseHMM._compute_transition_matrices cls self [] = Ok tm /\
        BaseHMM._compute_conditional_logliks cls self emissions = Ok ll /\
        post = hmm_filter ip tm ll /\
        BaseHMM.smoother cls self emissions = Ok (hmm_smoother ip tm ll) /\
        BaseHMM.most_likely_states cls self emissions
        = Ok (hmm_posterior_mode ip tm ll) /\
        BaseHMM.marginal_log_prob cls self emissions
        = Ok (marginal_loglik (hmm_filter ip tm ll))
  | Err e =>
      BaseHMM.smoother cls self emissions = Err e /\
      BaseHMM.most_likely_states cls self emissions = Err e /\
      BaseHMM.marginal_log_prob cls self emissions = Err e
  end.
Proof.
  unfold BaseHMM.filter, BaseHMM.smoother, BaseHMM.most_likely_states,
    BaseHMM.marginal_log_prob.
  destruct (BaseHMM._compute_initial_probs cls self) as [ip|e]; cbn [rbind];
    [|repeat split].
  destruct (BaseHMM._compute_transition_matrices cls self []) as [tm|e];
    cbn [rbind]; [|repeat split].
  destruct (BaseHMM._compute_conditional_logliks cls self emissions) as [ll|e];
    cbn [rbind]; [|repeat split].
  exists ip, tm, ll. repeat split.
Qed.
End StandardInference.

(** ** The training loops *)

Section Training.
Context {F : Type} {SF : Scalar F} {INF : Inference F}
        {TR : Transforms F} {OPT : Optim F}.
Variable cls : HMMClass F.

(** On a minibatch with no sequence all three objectives raise
    [ZeroDivisionError] when they compute the scale.  The two M-step
    objectives compute the scale first and leave the model as it was; the
    loss of [fit_sgd] writes [params] into the model first, so the model
    holds them when the exception is raised. *)
Theorem empty_minibatch_division (batch_emissions : Array F) (n : nat)
    (params : Params F) (minibatch_emissions : Array F)
    (minibatch_posteriors : Posterior F) (self : Model F) :
  len batch_emissions = Ok n ->
  len minibatch_emissions = Ok 0 ->
  BaseHMM.neg_expected_log_joint cls batch_emissions params
    (minibatch_emissions, minibatch_posteriors) self
  = (Err ZeroDivisionError, self)
  /\ StandardHMM.neg_expected_log_joint cls batch_emissions params
       (minibatch_emissions, minibatch_posteriors) self
     = (Err ZeroDivisionError, self)
  /\ BaseHMM._loss_fn cls batch_emissions params minibatch_emissions self
     = (Err ZeroDivisionError, set_unconstrained_params params self).
Proof.
  intros Hb Hm.
  unfold BaseHMM.neg_expected_log_joint, StandardHMM.neg_expected_log_joint,
    BaseHMM._loss_fn, bind, call, assign_unconstrained_params.
  rewrite Hb, Hm. repeat split.
Qed.

Lemma set_unconstrained_same_skeleton (values : Params F) :
  forall self1 self2 : Model F,
    Forall2 (fun a b =>
               fst a = fst b /\ bijector (snd a) = bijector (snd b) /\
               is_frozen (snd a) = is_frozen (snd b) /\
               (is_frozen (snd a) = true -> value (snd a) = value (snd b)))
            self1 self2 ->
    length (get_unconstrained_params self1) <= length values ->
    set_unconstrained_params values self1 = set_unconstrained_params values self2.
Proof.
  intros self1 self2 Hsk. revert values.
  induction Hsk as [|[n1 p1] [n2 p2] r1 r2 [Hn [Hb [Hf Hv]]] _ IH];
    intros values Hlen; [reflexivity|].
  cbn [fst snd] in *. subst n2. cbn [set_unconstrained_params].
  cbn [get_unconstrained_params] in Hlen. rewrite <- Hf.
  destruct (is_frozen p1) eqn:Hp1.
  - rewrite (IH values Hlen).
    destruct p1 as [v1 b1 f1], p2 as [v2 b2 f2]. cbn in *.
    subst. rewrite (Hv eq_refl). reflexivity.
  - destruct values as [|u us]; cbn [length] in Hlen; [lia|].
    rewrite Hb, (IH us) by lia. reflexivity.
Qed.

(** The EM step and the SGD loss start by writing [params] into every
    non-frozen parameter.  Hence two models with the same attribute names,
    bijectors, frozen flags and frozen values, which may differ in their
    non-frozen values, give the same result and the same model afterwards,
    once [params] has an entry for every non-frozen parameter. *)
Theorem em_step_depends_on_params_only
    (self_m_step : Array F -> Posterior F -> M F unit)
    (batch_emissions : Array F) (params : Params F) (self1 self2 : Model F)
    (minibatch_emissions : Array F) :
  Forall2 (fun a b =>
             fst a = fst b /\ bijector (snd a) = bijector (snd b) /\
             is_frozen (snd a) = is_frozen (snd b) /\
             (is_frozen (snd a) = true -> value (snd a) = value (snd b)))
          self1 self2 ->
  length (get_unconstrained_params self1) <= length params ->
  BaseHMM.em_step cls self_m_step batch_emissions params self1
  = BaseHMM.em_step cls self_m_step batch_emissions params self2
  /\ BaseHMM._loss_fn cls batch_emissions params minibatch_emissions self1
     = BaseHMM._loss_fn cls batch_emissions params minibatch_emissions self2.
Proof.
  intros Hsk Hlen.
  pose proof (set_unconstrained_same_skeleton params self1 self2 Hsk Hlen) as Heq.
  unfold BaseHMM.em_step, BaseHMM._loss_fn, bind, assign_unconstrained_params.
  rewrite Heq. split; reflexivity.
Qed.

(** *** Frozen parameters across the loops *)

Lemma em_step_keeps (self_m_step : Array F -> Posterior F -> M F unit)
    (fp : Model F) (batch_emissions : Array F) (params : Params F) :
  (forall b p, preserves (fun s => frozen_params s = fp) (self_m_step b p)) ->
  preserves (fun s => frozen_params s = fp)
            (BaseHMM.em_step cls self_m_step batch_emissions params).
Proof.
  intros Hm. unfold BaseHMM.em_step.
  apply preserves_bind.
  { apply preserves_assign. intros v s <-. apply frozen_set_unconstrained. }
  intros _. apply preserves_bind; [apply preserves_call|]. intros posts.
  apply preserves_bind; [apply preserves_call|]. intros lp0.
  apply preserves_bind; [apply Hm|]. intros _.
  apply preserves_bind; [apply preserves_read|]. intros params'.
  apply preserves_ret.
Qed.

(** [fit_em] leaves the frozen parameters of the model as they were, on
    every path, whenever the M-step it dispatches to does. *)
Theorem fit_em_keeps_frozen (self_m_step : Array F -> Posterior F -> M F unit)
    (batch_emissions : Array F) (num_iters : nat) (self : Model F) :
  (forall fp b p, preserves (fun s => frozen_params s = fp) (self_m_step b p)) ->
  frozen_params (snd (BaseHMM.fit_em cls self_m_step batch_emissions num_iters self))
  = frozen_params self.
Proof.
  intros Hm. set (fp := frozen_params self).
  assert (Hloop : forall n params acc,
             preserves (fun s => frozen_params s = fp)
               (BaseHMM.em_loop cls self_m_step batch_emissions n params acc)).
  { induction n as [|n IH]; intros params acc; cbn [BaseHMM.em_loop].
    - apply preserves_ret.
    - apply preserves_bind; [apply em_step_keeps, Hm|].
      intros [params' lp]. apply IH. }
  assert (Hfit : preserves (fun s => frozen_params s = fp)
                   (BaseHMM.fit_em cls self_m_step batch_emissions num_iters)).
  { unfold BaseHMM.fit_em.
    apply preserves_bind; [apply preserves_read|]. intros params.
    apply preserves_bind; [apply Hloop|]. intros [params' lps].
    apply preserves_bind.
    { apply preserves_assign. intros v s <-. apply frozen_set_unconstrained. }
    intros _. apply preserves_ret. }
  apply Hfit. reflexivity.
Qed.

(** [fit_sgd] leaves the frozen parameters of the model as they were, on
    every path. *)
Theorem fit_sgd_keeps_frozen (batch_emissions : Array F) (optimizer : Optimizer)
    (batch_size num_epochs : nat) (shuffle : bool) (key : PRNGKey)
    (self : Model F) :
  frozen_params
    (snd (BaseHMM.fit_sgd cls batch_emissions optimizer batch_size num_epochs
                          shuffle key self))
  = frozen_params self.
Proof.
  set (fp := frozen_params self).
  assert (Hset : forall v s, frozen_params s = fp ->
                             frozen_params (set_unconstrained_params v s) = fp)
    by (intros v s <-; apply frozen_set_unconstrained).
  assert (Hfit : preserves (fun s => frozen_params s = fp)
                   (BaseHMM.fit_sgd cls batch_emissions optimizer batch_size
                                    num_epochs shuffle key)).
  { unfold BaseHMM.fit_sgd.
    apply preserves_bind; [apply preserves_read|]. intros params0.
    apply preserves_bind.
    - apply preserves_run_sgd. intros p d. unfold BaseHMM._loss_fn.
      apply preserves_bind; [apply preserves_assign, Hset|]. intros _.
      apply preserves_bind; [apply preserves_call|]. intros scale.
      apply preserves_bind; [apply preserves_call|]. intros lls.
      apply preserves_bind; [apply preserves_call|]. intros lp0.
      apply preserves_ret.
    - intros [params losses].
      apply preserves_bind; [apply preserves_assign, Hset|]. intros _.
      apply preserves_ret. }
  apply Hfit. reflexivity.
Qed.
End Training.

(** ** What the M-step of StandardHMM does to the model *)

Section StandardMStep.
Context {F : Type} {SF : Scalar F} {INF : Inference F}
        {TR : Transforms F} {OPT : Optim F}.
Variable cls : HMMClass F.

Lemma assign_value_skeleton (name : string) (v : Array F) :
  forall self self' : Model F,
    assign_value name v self = Ok self' ->
    Forall2 (fun a b =>
               fst a = fst b /\ bijector (snd a) = bijector (snd b) /\
               is_frozen (snd a) = is_frozen (snd b) /\
               (fst a <> name -> snd a = snd b))
            self self'.
Proof.
  induction self as [|[n q] r IH]; intros self' Ha; cbn [assign_value] in Ha;
    [discriminate|].
  destruct (String.eqb n name) eqn:Hn.
  - destruct (in_domain (bijector q) v); [|discriminate].
    injection Ha as <-. constructor.
    + cbn. repeat split. intros Hne. apply String.eqb_eq in Hn. congruence.
    + clear. induction r as [|a r IHr]; constructor; [repeat split | exact IHr].
  - destruct (assign_value name v r) as [r'|e] eqn:Hr; cbn [rbind] in Ha;
      [|discriminate].
    injection Ha as <-. constructor; [repeat split | apply IH; reflexivity].
Qed.

Lemma skeleton_refl (name : string) (self : Model F) :
  Forall2 (fun a b =>
             fst a = fst b /\ bijector (snd a) = bijector (snd b) /\
             is_frozen (snd a) = is_frozen (snd b) /\
             (fst a <> name -> snd a = snd b))
          self self.
Proof. induction self as [|a r IH]; constructor; [repeat split | exact IH]. Qed.

Lemma closed_form_step_frame (name conc : string)
    (stat : Posterior F -> Array F) (batch_posteriors : Posterior F)
    (self : Model F) :
  let r := (c <- call (getattr conc) ;;
            counts <- call (fun _ => sum_axis0 (stat batch_posteriors)) ;;
            alpha <- call (fun _ => np_add (value c) counts) ;;
            update (assign_value name (Dirichlet_mode (mkDirichlet alpha))))%py
             self in
  Forall2 (fun a b =>
             fst a = fst b /\ bijector (snd a) = bijector (snd b) /\
             is_frozen (snd a) = is_frozen (snd b) /\
             (fst a <> name -> snd a = snd b))
          self (snd r)
  /\ (forall e, fst r = Err e -> snd r = self).
Proof.
  unfold bind, call, update.
  destruct (getattr conc self) as [c|e];
    [|split; [apply skeleton_refl | reflexivity]].
  destruct (sum_axis0 _) as [counts|e];
    [|split; [apply skeleton_refl | reflexivity]].
  destruct (np_add _ _) as [alpha|e];
    [|split; [apply skeleton_refl | reflexivity]].
  destruct (assign_value name _ self) as [self'|e] eqn:Ha;
    [|split; [apply skeleton_refl | reflexivity]].
  cbn [fst snd]. split; [|discriminate].
  exact (assign_value_skeleton name _ self self' Ha).
Qed.

(** Each closed-form sub-step changes at most the value of its own
    parameter: the attribute names, their order, every bijector and frozen
    flag, and every parameter under another name are as before, and when
    the sub-step raises, the model is exactly as it was. *)
Theorem closed_form_steps_touch_one_value (batch_emissions : Array F)
    (batch_posteriors : Posterior F) (self : Model F) :
  (Forall2 (fun a b =>
              fst a = fst b /\ bijector (snd a) = bijector (snd b) /\
              is_frozen (snd a) = is_frozen (snd b) /\
              (fst a <> "_initial_probs" -> snd a = snd b))
           self
           (snd (StandardHMM._m_step_initial_probs batch_emissions
                   batch_posteriors self))
   /\ (forall e,
         fst (StandardHMM._m_step_initial_probs batch_emissions
                batch_posteriors self) = Err e ->
         snd (StandardHMM._m_step_initial_probs batch_emissions
                batch_posteriors self) = self))
  /\
  (Forall2 (fun a b =>
              fst a = fst b /\ bijector (snd a) = bijector (snd b) /\
              is_frozen (snd a) = is_frozen (snd b) /\
              (fst a <> "_transition_matrix" -> snd a = snd b))
           self
           (snd (StandardHMM._m_step_transition_matrix batch_emissions
                   batch_posteriors self))
   /\ (forall e,
         fst (StandardHMM._m_step_transition_matrix batch_emissions
                batch_posteriors self) = Err e ->
         snd (StandardHMM._m_step_transition_matrix batch_emissions
                batch_posteriors self) = self)).
Proof.
  split.
  - exact (closed_form_step_frame "_initial_probs" "_initial_probs_concentration"
             (@initial_probs F) batch_posteriors self).
  - exact (closed_form_step_frame "_transition_matrix"
             "_transition_matrix_concentration"
             (@trans_probs F) batch_posteriors self).
Qed.

(** *** The emission sub-step cannot complete *)

Lemma standard_objective_fails (batch_emissions : Array F) (params : Params F)
    (minibatch : Array F * Posterior F) (self : Model F) :
  exists e,
    fst (StandardHMM.neg_expected_log_joint cls batch_emissions params
                                            minibatch self) = Err e.
Proof.
  destruct minibatch as [mb_e mb_p].
  unfold StandardHMM.neg_expected_log_joint, bind, call,
    assign_unconstrained_params, ret.
  destruct (len batch_emissions) as [n|e]; cbn [rbind fst]; [|eauto].
  destruct (len mb_e) as [k|e] eqn:Hk; cbn [rbind fst]; [|eauto].
  unfold py_div. destruct k as [|k]; cbn [Nat.eqb fst]; [eauto|].
  destruct (log_prior cls _) as [lp0|e]; cbn [fst]; [|eauto].
  destruct (@vmap2_fails F
              (StandardHMM._single_expected_log_like
                 cls (set_unconstrained_params params self))
              mb_e mb_p k
              (single_expected_log_like_fails cls _) Hk)
    as [err Herr].
  rewrite Herr. cbn [fst]. eauto.
Qed.

Lemma bind_fails {A B} (c : M F A) (k : A -> M F B) (self : Model F) :
  (exists e, fst (c self) = Err e) \/
  (exists a self', c self = (Ok a, self') /\ exists e, fst (k a self') = Err e) ->
  exists e, fst (bind c k self) = Err e.
Proof.
  unfold bind. intros [[e He]|[a [self' [Hc [e He]]]]].
  - destruct (c self) as [[a|e'] s']; cbn [fst] in *; [discriminate | eauto].
  - rewrite Hc. eauto.
Qed.

Lemma foldM_fails {A B} (f : B -> A -> M F B) (x : A) (xs : list A) (b : B)
    (self : Model F) :
  (exists e, fst (f b x self) = Err e) ->
  exists e, fst (foldM_py f (x :: xs) b self) = Err e.
Proof.
  intros H. cbn [foldM_py]. apply bind_fails. left. exact H.
Qed.

Lemma groups_of_nonempty {A} (k : nat) (x : A) (l : list A) :
  exists g gs, groups_of (length (x :: l)) k (x :: l) = g :: gs.
Proof. cbn [length groups_of]. eauto. Qed.

Lemma standard_run_sgd_fails (batch_emissions : Array F)
    (batch_posteriors : Posterior F) (params : Params F)
    (optimizer : Optimizer) (bs iters n : nat) (sh : bool) (key : PRNGKey)
    (self : Model F) :
  len batch_emissions = Ok (S n) ->
  split key iters <> [] ->
  (sh = true -> forall k, permutation k (S n) <> []) ->
  exists e,
    fst (run_sgd (StandardHMM.neg_expected_log_joint cls batch_emissions)
                 params (batch_emissions, batch_posteriors)
                 optimizer bs iters sh key self) = Err e.
Proof.
  intros Hlen Hsplit Hperm. unfold run_sgd. apply bind_fails. left.
  destruct (split key iters) as [|k0 ks]; [congruence|].
  apply foldM_fails. unfold sgd_epoch. apply bind_fails.
  unfold call at 1. cbn [fst].
  destruct (sample_minibatches k0 (batch_emissions, batch_posteriors) bs sh)
    as [mbs|e] eqn:Hs; [right | left; eauto].
  exists mbs, self. split; [reflexivity|].
  unfold sample_minibatches in Hs. cbn [tree_len tree_take Dataset_pair fst] in Hs.
  rewrite Hlen in Hs. cbn [rbind] in Hs. unfold minibatch_indices in Hs.
  destruct (bs =? 0); [discriminate|]. cbn [rbind] in Hs.
  assert (Hg : exists g gs,
             groups_of (length (if sh then permutation k0 (S n) else seq 0 (S n))) bs
                       (if sh then permutation k0 (S n) else seq 0 (S n))
             = g :: gs).
  { destruct sh.
    - specialize (Hperm eq_refl k0).
      destruct (permutation k0 (S n)) as [|x l]; [congruence|].
      apply groups_of_nonempty.
    - cbn [seq]. apply groups_of_nonempty. }
  destruct Hg as [g [gs Hg]]. rewrite Hg in Hs. injection Hs as <-.
  cbn [map]. apply foldM_fails. unfold sgd_step. apply bind_fails. left.
  apply standard_objective_fails.
Qed.

Lemma standard_m_step_fails (bs : nat) (sh : bool) (key : PRNGKey)
    (batch_emissions : Array F) (batch_posteriors : Posterior F)
    (optimizer : Optimizer) (iters n : nat) (self : Model F) :
  len batch_emissions = Ok (S n) ->
  split key iters <> [] ->
  (sh = true -> forall k, permutation k (S n) <> []) ->
  exists e,
    fst (StandardHMM.m_step cls bs sh key batch_emissions batch_posteriors
                            optimizer iters self) = Err e.
Proof.
  intros Hlen Hsplit Hperm. unfold StandardHMM.m_step.
  apply bind_fails.
  destruct (StandardHMM._m_step_initial_probs batch_emissions batch_posteriors self)
    as [[u1|e] self1] eqn:E1; [right | left; cbn [fst]; eauto].
  exists u1, self1. split; [reflexivity|].
  apply bind_fails.
  destruct (StandardHMM._m_step_transition_matrix batch_emissions batch_posteriors
              self1)
    as [[u2|e] self2] eqn:E2; [right | left; cbn [fst]; eauto].
  exists u2, self2. split; [reflexivity|].
  unfold StandardHMM._m_step_emissions. apply bind_fails. right.
  exists (get_unconstrained_params self2), self2. split; [reflexivity|].
  apply bind_fails. left.
  now apply standard_run_sgd_fails with (n := n).
Qed.

(** As soon as there is a sequence in the batch and an epoch to run,
    [StandardHMM.m_step] never returns: either a closed-form sub-step
    raises, or the emission sub-step reaches its objective on the first
    minibatch, which raises. *)
Theorem standard_m_step_never_returns (bs : nat) (sh : bool) (key : PRNGKey)
    (batch_emissions : Array F) (batch_posteriors : Posterior F)
    (optimizer : Optimizer) (iters n : nat) (self : Model F) :
  len batch_emissions = Ok (S n) ->
  split key iters <> [] ->
  (sh = true -> forall k, permutation k (S n) <> []) ->
  forall r,
    fst (StandardHMM.m_step cls bs sh key batch_emissions batch_posteriors
                            optimizer iters self) <> Ok r.
Proof.
  intros Hlen Hsplit Hperm r.
  destruct (standard_m_step_fails bs sh key batch_emissions batch_posteriors
              optimizer iters n self Hlen Hsplit Hperm) as [e He].
  rewrite He. discriminate.
Qed.

(** [fit_em] does not catch what the M-step raises: with at least one
    iteration and an M-step that raises on this batch, [fit_em] raises and
    returns no trajectory. *)
Theorem fit_em_raises_when_m_step_raises
    (self_m_step : Array F -> Posterior F -> M F unit)
    (batch_emissions : Array F) (num_iters : nat) (self : Model F) :
  (forall posteriors s, exists e,
      fst (self_m_step batch_emissions posteriors s) = Err e) ->
  exists e,
    fst (BaseHMM.fit_em cls self_m_step batch_emissions (S num_iters) self)
    = Err e.
Proof.
  intros Hm. unfold BaseHMM.fit_em. apply bind_fails. right.
  exists (get_unconstrained_params self), self. split; [reflexivity|].
  apply bind_fails. left. cbn [BaseHMM.em_loop]. apply bind_fails. left.
  unfold BaseHMM.em_step. apply bind_fails. right.
  eexists tt, _. split; [reflexivity|].
  apply bind_fails. unfold call at 1. cbn [fst].
  destruct (BaseHMM.e_step cls _ batch_emissions) as [posts|e] eqn:He;
    [right | left; eauto].
  eexists posts, _. split; [unfold call; cbn beta; rewrite He; reflexivity|].
  apply bind_fails. unfold call at 1. cbn [fst].
  destruct (log_prior cls _) as [lp0|e] eqn:Hp; [right | left; eauto].
  eexists lp0, _. split; [unfold call; rewrite Hp; reflexivity|].
  apply bind_fails. left. apply Hm.
Qed.
End StandardMStep.

(** ** The further properties at the concrete instance *)

Lemma conditional_logliks_entries_witness :
  exists m,
    BaseHMM._compute_conditional_logliks Concrete.toy_class Concrete.toy_model
      (slice0 0 Concrete.toy_batch) = Ok m /\
    shape m = [3; 2].
Proof.
  destruct (conditional_logliks_entries
              Concrete.toy_class Concrete.toy_model (slice0 0 Concrete.toy_batch)
              3 [1] 2 Concrete.toy_log_prob)
    as [m [Hm [Hs _]]].
  - reflexivity.
  - lia.
  - reflexivity.
  - lia.
  - intros state _. eexists. split; [reflexivity|]. intros e. reflexivity.
  - exists m. split; assumption.
Defined.

Lemma constructed_model_statistics_witness :
  BaseHMM.num_states Concrete.toy_class Concrete.toy_model = Ok 2 /\
  BaseHMM._compute_transition_matrices Concrete.toy_class Concrete.toy_model []
  = Ok Concrete.toy_transition_matrix.
Proof.
  destruct (constructed_model_statistics
              Concrete.toy_initial_probs Concrete.toy_transition_matrix
              (11 # 10)%Q (11 # 10)%Q Concrete.toy_model 1
              Concrete.toy_emission Concrete.toy_log_prior None)
    as [Hn [_ [Htm _]]];
    [reflexivity | reflexivity | reflexivity |].
  split; [exact Hn | exact Htm].
Defined.

Lemma standard_hmm_rejects_covariates_witness :
  BaseHMM._compute_transition_matrices Concrete.toy_class Concrete.toy_model
    [("u", Concrete.mat 3 2 [1; 0; 1 # 2; 1 # 2; 0; 1]%Q)]
  = Err TypeError.
Proof.
  apply (standard_hmm_rejects_covariates
           Concrete.toy_emission Concrete.toy_log_prior None
           Concrete.toy_model 1
           [("u", Concrete.mat 3 2 [1; 0; 1 # 2; 1 # 2; 0; 1]%Q)] 2).
  - reflexivity.
  - discriminate.
  - repeat constructor.
Defined.

Lemma constructed_model_e_step_reduces_witness :
  exists posteriors,
    BaseHMM.e_step Concrete.toy_class Concrete.toy_model Concrete.toy_batch
    = Ok posteriors.
Proof.
  eexists.
  apply (constructed_model_e_step_reduces
           Concrete.toy_initial_probs Concrete.toy_transition_matrix
           (11 # 10)%Q (11 # 10)%Q Concrete.toy_model 1
           Concrete.toy_emission Concrete.toy_log_prior None
           Concrete.toy_batch
           [slice0 0 Concrete.toy_batch; slice0 1 Concrete.toy_batch]
           (fun em =>
              match BaseHMM._compute_conditional_logliks
                      Concrete.toy_class Concrete.toy_model em with
              | Ok a => a
              | Err _ => scalar 0%Q
              end)
           1 2 [1]).
  - reflexivity.
  - reflexivity.
  - reflexivity.
  - reflexivity.
  - reflexivity.
  - intros em [<-|[<-|[]]]; reflexivity.
Defined.

Lemma abstract_emissions_not_implemented_witness :
  BaseHMM.filter Concrete.toy_abstract_class Concrete.toy_model
                 (slice0 0 Concrete.toy_batch)
  = Err NotImplementedError /\
  BaseHMM.e_step Concrete.toy_abstract_class Concrete.toy_model Concrete.toy_batch
  = Err NotImplementedError.
Proof.
  destruct (abstract_emissions_not_implemented
              Concrete.toy_initial_probs Concrete.toy_transition_matrix
              (11 # 10)%Q (11 # 10)%Q Concrete.toy_model 1 Concrete.toy_log_prior
              (slice0 0 Concrete.toy_batch) Concrete.toy_batch 1 2 [1])
    as [_ [_ [Hf [_ [He _]]]]];
    [reflexivity | reflexivity | reflexivity | reflexivity |].
  split; [exact Hf | exact He].
Defined.

Lemma empty_minibatch_division_witness :
  BaseHMM._loss_fn Concrete.toy_class Concrete.toy_batch
    (get_unconstrained_params Concrete.toy_model_other)
    (take [] Concrete.toy_batch) Concrete.toy_model
  = (Err ZeroDivisionError,
     set_unconstrained_params (get_unconstrained_params Concrete.toy_model_other)
                              Concrete.toy_model).
Proof.
  apply (empty_minibatch_division
           Concrete.toy_class Concrete.toy_batch 2
           (get_unconstrained_params Concrete.toy_model_other)
           (take [] Concrete.toy_batch)
           (take_posterior [] Concrete.toy_posteriors) Concrete.toy_model);
    reflexivity.
Defined.

Lemma em_step_depends_on_params_only_witness :
  BaseHMM._loss_fn Concrete.toy_class Concrete.toy_batch
    (get_unconstrained_params Concrete.toy_model)
    (take [1] Concrete.toy_batch) Concrete.toy_model
  = BaseHMM._loss_fn Concrete.toy_class Concrete.toy_batch
      (get_unconstrained_params Concrete.toy_model)
      (take [1] Concrete.toy_batch) Concrete.toy_model_other.
Proof.
  apply (em_step_depends_on_params_only
           Concrete.toy_class
           (fun b p => BaseHMM.m_step Concrete.toy_class 1 false Concrete.toy_key b p
                                      Concrete.toy_optimizer 2)
           Concrete.toy_batch (get_unconstrained_params Concrete.toy_model)
           Concrete.toy_model Concrete.toy_model_other
           (take [1] Concrete.toy_batch)).
  - repeat (constructor;
            [cbn; repeat split; try reflexivity; intros H; discriminate|]).
    constructor.
  - cbn. lia.
Defined.

Lemma fit_em_keeps_frozen_witness :
  frozen_params
    (snd (BaseHMM.fit_em Concrete.toy_class
            (fun b p => BaseHMM.m_step Concrete.toy_class 1 false Concrete.toy_key b p
                                       Concrete.toy_optimizer 2)
            Concrete.toy_batch 2 Concrete.toy_model))
  = frozen_params Concrete.toy_model.
Proof.
  apply (fit_em_keeps_frozen Concrete.toy_class
           (fun b p => BaseHMM.m_step Concrete.toy_class 1 false Concrete.toy_key b p
                                      Concrete.toy_optimizer 2)
           Concrete.toy_batch 2 Concrete.toy_model).
  intros fp b p. apply base_m_step_keeps.
Defined.

Lemma standard_m_step_never_returns_witness :
  is_ok (fst (StandardHMM.m_step Concrete.toy_class 1 false Concrete.toy_key
                Concrete.toy_batch Concrete.toy_posteriors Concrete.toy_optimizer 2
                Concrete.toy_model)) = false.
Proof.
  destruct (fst (StandardHMM.m_step Concrete.toy_class 1 false Concrete.toy_key
                   Concrete.toy_batch Concrete.toy_posteriors
                   Concrete.toy_optimizer 2 Concrete.toy_model))
    as [r|e] eqn:Hr; [|reflexivity].
  exfalso.
  apply (standard_m_step_never_returns Concrete.toy_class 1 false Concrete.toy_key
           Concrete.toy_batch Concrete.toy_posteriors Concrete.toy_optimizer 2 1
           Concrete.toy_model) with (r := r).
  - reflexivity.
  - discriminate.
  - discriminate.
  - exact Hr.
Defined.

Lemma fit_em_raises_when_m_step_raises_witness :
  exists e,
    fst (BaseHMM.fit_em Concrete.toy_class
           (fun b p => StandardHMM.m_step Concrete.toy_class 1 false Concrete.toy_key
                                          b p Concrete.toy_optimizer 2)
           Concrete.toy_batch 1 Concrete.toy_model)
    = Err e.
Proof.
  apply (fit_em_raises_when_m_step_raises Concrete.toy_class
           (fun b p => StandardHMM.m_step Concrete.toy_class 1 false Concrete.toy_key
                                          b p Concrete.toy_optimizer 2)
           Concrete.toy_batch 0 Concrete.toy_model).
  intros posteriors s.
  apply (standard_m_step_fails Concrete.toy_class 1 false Concrete.toy_key
           Concrete.toy_batch posteriors Concrete.toy_optimizer 2 1 s).
  - reflexivity.
  - discriminate.
  - discriminate.
Defined.

(** ** The parameters of a constructed model *)

Section ConstructedParameters.
Context {F : Type} {SF : Scalar F} {TR : Transforms F}.

(** Of the four parameters the constructor stores, only the initial
    probabilities and the transition matrix are optimized: the flattened
    vector of a constructed model is their images under the inverse of the
    centered softmax, in that order; writing a vector [u1; u2] back sets
    them to the centered softmax of [u1] and [u2]; and the two frozen
    concentrations are vectors of [K] copies of the scalar passed in, times
    one. *)
Theorem constructed_model_parameters (ip tm : Array F) (c1 c2 : F)
    (self : Model F) (u1 u2 : Array F) :
  StandardHMM.__init__ ip tm c1 c2 = Ok self ->
  let k := last (shape tm) 0 in
  get_unconstrained_params self
  = [tfb_inverse SoftmaxCentered ip; tfb_inverse SoftmaxCentered tm]
  /\ frozen_params self
     = [ ("_initial_probs_concentration",
          mkParameter (mkArray [k] (repeat (fmul c1 fone) k)) (Invert Softplus) true);
         ("_transition_matrix_concentration",
          mkParameter (mkArray [k] (repeat (fmul c2 fone) k)) (Invert Softplus) true) ]
  /\ getattr "_initial_probs" (set_unconstrained_params [u1; u2] self)
     = Ok (mkParameter (tfb_forward SoftmaxCentered u1) (Invert SoftmaxCentered) false)
  /\ getattr "_transition_matrix" (set_unconstrained_params [u1; u2] self)
     = Ok (mkParameter (tfb_forward SoftmaxCentered u2) (Invert SoftmaxCentered) false).
Proof.
  intros Hinit k.
  destruct (init_ok_inv ip tm c1 c2 self Hinit) as [_ [_ Hself]].
  fold k in Hself. subst self.
  split; [reflexivity|]. split; [|split; reflexivity].
  cbn [frozen_params List.filter snd is_frozen].
  unfold scale_by, ones. cbn [shape data]. rewrite !map_repeat. reflexivity.
Qed.
End ConstructedParameters.

Lemma constructed_model_parameters_witness :
  length (get_unconstrained_params Concrete.toy_model) = 2 /\
  map fst (frozen_params Concrete.toy_model)
  = ["_initial_probs_concentration"; "_transition_matrix_concentration"].
Proof.
  destruct (constructed_model_parameters
              Concrete.toy_initial_probs Concrete.toy_transition_matrix
              (11 # 10)%Q (11 # 10)%Q Concrete.toy_model
              Concrete.toy_initial_probs Concrete.toy_transition_matrix)
    as [Hu [Hf _]]; [reflexivity|].
  rewrite Hu, Hf. split; reflexivity.
Defined.
